(** * Modular decomposition (md.py): a shallow embedding and its properties

    The development follows the layout of [md.py]:
    - [Py]: the fragment of the Python runtime the code relies on
      (list indexing with negative wrap-around, [list.remove], [max],
      [range], exceptions);
    - [Node], [Graph]: the graph model;
    - [Tree], [PartitionClass] and the object store;
    - the monad [M] of store-passing computations that may raise;
    - [Partition], [divide_md_tree], [tree_refinement], [factorize],
      [pivot_factorizing_permutation], [build_spine], [conquer_md_tree],
      [md_tree].

    Python objects live in arenas indexed by natural numbers (a reference
    is an index).  A graph vertex is identified with its key in
    [Graph.nodes]. *)

From stdpp Require Import gmap list sorting strings.
From Stdlib Require Import ZArith Lia.

(** ** Python runtime *)

Module Py.

(** An exception is identified by the name of its class.  [OutOfFuel] and
    [Dangling] are not Python exceptions: the first is raised by the
    embedding when a loop bound is exhausted, the second when a reference
    does not denote an allocated object (impossible in Python). *)
Inductive exn :=
  | PyExc (cls : string)
  | OutOfFuel
  | Dangling.

Inductive Res (A : Type) :=
  | Ok (a : A)
  | Raise (e : exn).
Arguments Ok {A} a.
Arguments Raise {A} e.

Definition StopIteration : exn := PyExc "StopIteration".
Definition IndexError : exn := PyExc "IndexError".
Definition ValueError : exn := PyExc "ValueError".
Definition AttributeError : exn := PyExc "AttributeError".
Definition TypeError : exn := PyExc "TypeError".

(** [l[i]]: a negative index counts from the end. *)
Definition getitem {A} (l : list A) (i : Z) : Res A :=
  let n := Z.of_nat (length l) in
  let j := if (i <? 0)%Z then (i + n)%Z else i in
  if ((0 <=? j)%Z && (j <? n)%Z)
  then match l !! Z.to_nat j with
       | Some x => Ok x
       | None => Raise IndexError
       end
  else Raise IndexError.

(** [l.remove(x)]: removes the first occurrence, [None] stands for the
    [ValueError] raised when there is none. *)
Fixpoint remove (x : nat) (l : list nat) : option (list nat) :=
  match l with
  | [] => None
  | y :: l' => if decide (y = x) then Some l' else cons y <$> remove x l'
  end.

(** [range(a, b)] *)
Definition range (a b : Z) : list Z :=
  (λ k, (a + Z.of_nat k)%Z) <$> seq 0 (Z.to_nat (b - a)).

(** [max(iterable)]: [ValueError] on an empty iterable. *)
Definition max (l : list Z) : Res Z :=
  match l with
  | [] => Raise ValueError
  | x :: l' => Ok (foldl Z.max x l')
  end.

(** Iteration order of a set of vertices or of objects: Python leaves it
    unspecified; the embedding iterates in ascending order. *)
Definition iter (s : gset nat) : list nat := merge_sort Nat.le (elements s).

End Py.
Export Py.

(** ** Graph model *)

Module Node.

Record t := mk {
  adjacent : gset nat;
  alpha : gset nat;
  active_alpha : gset nat;
  container : option nat
}.

(** [Node.__init__] *)
Definition init : t := mk ∅ ∅ ∅ None.

Definition add_neighbor (neighbor : nat) (self : t) : t :=
  mk ({[neighbor]} ∪ adjacent self) (alpha self) (active_alpha self) (container self).

Definition closed_neighborhood (self_id : nat) (self : t) : gset nat :=
  adjacent self ∪ {[self_id]}.

Definition add_alpha_neighbor (alpha_neighbor : nat) (self : t) : t :=
  mk (adjacent self) ({[alpha_neighbor]} ∪ alpha self) (active_alpha self) (container self).

Definition set_alpha (a : gset nat) (self : t) : t :=
  mk (adjacent self) a (active_alpha self) (container self).

Definition set_active_alpha (a : gset nat) (self : t) : t :=
  mk (adjacent self) (alpha self) a (container self).

Definition set_container (c : option nat) (self : t) : t :=
  mk (adjacent self) (alpha self) (active_alpha self) c.

End Node.

Module Graph.

(** [Graph.nodes]: the dictionary from ids to node objects. *)
Abbreviation t := (gmap nat Node.t).

Definition add_node (node_id : nat) (node : Node.t) (self : t) : t :=
  if decide (node_id ∈ dom self) then self else <[node_id := node]> self.

Definition add_edge (u_id v_id : nat) (self : t) : t :=
  let g1 := if decide (u_id ∈ dom self) then self else add_node u_id Node.init self in
  let g2 := if decide (v_id ∈ dom g1) then g1 else add_node v_id Node.init g1 in
  let g3 := alter (Node.add_neighbor v_id) u_id g2 in
  alter (Node.add_neighbor u_id) v_id g3.

Definition get_nodes (self : t) : gset nat := dom self.

(** A sequence of [add_edge] calls, in program order. *)
Fixpoint add_edges (calls : list (nat * nat)) (self : t) : t :=
  match calls with
  | [] => self
  | (u, v) :: calls' => add_edges calls' (add_edge u v self)
  end.

(** [v in u.adjacent], for [u] a vertex of the graph. *)
Definition adj (g : t) (u v : nat) : Prop :=
  ∃ nu, g !! u = Some nu ∧ v ∈ Node.adjacent nu.

Definition adjb (g : t) (u v : nat) : bool :=
  match g !! u with
  | Some nu => bool_decide (v ∈ Node.adjacent nu)
  | None => false
  end.

Definition symmetric (g : t) : Prop := ∀ u v, adj g u v ↔ adj g v u.
Definition irreflexive (g : t) : Prop := ∀ u, ¬ adj g u u.

End Graph.

(** ** Trees, partition classes and the object store *)

Inductive Label := DEAD | ZOMBIE.

(** [Type] of md.py; [NODE] is a leaf. *)
Inductive Type_ := SERIES | PARALLEL | PRIME | NODE.

Inductive Connectivity := COMPONENT | CO_COMPONENT.

#[global] Instance Label_eq_dec : EqDecision Label.
Proof. solve_decision. Defined.
#[global] Instance Type_eq_dec : EqDecision Type_.
Proof. solve_decision. Defined.
#[global] Instance Connectivity_eq_dec : EqDecision Connectivity.
Proof. solve_decision. Defined.

(** The [node] attribute of a tree node: [None] for a module, a graph
    vertex for a leaf, and, for the placeholder leaves of [build_spine], a
    frozenset of tree leaves (kept as a list: the order in which the
    leaves were collected). *)
Inductive payload :=
  | PNone
  | PVertex (v : nat)
  | PComp (c : list nat).

Module Tree.

Record t := mk {
  node : payload;
  type : Type_;
  parent : option nat;
  children : nat;                           (* reference to a list object *)
  is_marked : bool;
  label : option Label;
  connectivity : option (nat * Connectivity); (* [None] is [(None, None)] *)
  mu : option nat;
  rho : option nat;
  mark_count : nat;
  tree_index : option nat
}.

Definition set_type (v : Type_) (x : t) : t :=
  mk (node x) v (parent x) (children x) (is_marked x) (label x)
     (connectivity x) (mu x) (rho x) (mark_count x) (tree_index x).
Definition set_parent (v : option nat) (x : t) : t :=
  mk (node x) (type x) v (children x) (is_marked x) (label x)
     (connectivity x) (mu x) (rho x) (mark_count x) (tree_index x).
Definition set_children (v : nat) (x : t) : t :=
  mk (node x) (type x) (parent x) v (is_marked x) (label x)
     (connectivity x) (mu x) (rho x) (mark_count x) (tree_index x).
Definition set_is_marked (v : bool) (x : t) : t :=
  mk (node x) (type x) (parent x) (children x) v (label x)
     (connectivity x) (mu x) (rho x) (mark_count x) (tree_index x).
Definition set_label (v : option Label) (x : t) : t :=
  mk (node x) (type x) (parent x) (children x) (is_marked x) v
     (connectivity x) (mu x) (rho x) (mark_count x) (tree_index x).
Definition set_connectivity (v : option (nat * Connectivity)) (x : t) : t :=
  mk (node x) (type x) (parent x) (children x) (is_marked x) (label x)
     v (mu x) (rho x) (mark_count x) (tree_index x).
Definition set_mu (v : option nat) (x : t) : t :=
  mk (node x) (type x) (parent x) (children x) (is_marked x) (label x)
     (connectivity x) v (rho x) (mark_count x) (tree_index x).
Definition set_rho (v : option nat) (x : t) : t :=
  mk (node x) (type x) (parent x) (children x) (is_marked x) (label x)
     (connectivity x) (mu x) v (mark_count x) (tree_index x).
Definition set_mark_count (v : nat) (x : t) : t :=
  mk (node x) (type x) (parent x) (children x) (is_marked x) (label x)
     (connectivity x) (mu x) (rho x) v (tree_index x).
Definition set_tree_index (v : option nat) (x : t) : t :=
  mk (node x) (type x) (parent x) (children x) (is_marked x) (label x)
     (connectivity x) (mu x) (rho x) (mark_count x) v.

End Tree.

Module PartitionClass.

Record t := mk {
  nodes : gset nat;
  previous : option nat;
  next : option nat
}.

Definition set_previous (v : option nat) (x : t) : t := mk (nodes x) v (next x).
Definition set_next (v : option nat) (x : t) : t := mk (nodes x) (previous x) v.

End PartitionClass.

(** The store: the vertices of the graph, and one arena per class of
    objects.  [partitions] holds the [head] attribute of each [Partition]
    object, [lists] the list objects that [Tree.children] refer to. *)
Record Store := mkStore {
  vertices : gmap nat Node.t;
  trees : list Tree.t;
  lists : list (list nat);
  classes : list PartitionClass.t;
  partitions : list (option nat)
}.

Definition set_vertices (v : gmap nat Node.t) (s : Store) : Store :=
  mkStore v (trees s) (lists s) (classes s) (partitions s).
Definition set_trees (v : list Tree.t) (s : Store) : Store :=
  mkStore (vertices s) v (lists s) (classes s) (partitions s).
Definition set_lists (v : list (list nat)) (s : Store) : Store :=
  mkStore (vertices s) (trees s) v (classes s) (partitions s).
Definition set_classes (v : list PartitionClass.t) (s : Store) : Store :=
  mkStore (vertices s) (trees s) (lists s) v (partitions s).
Definition set_partitions (v : list (option nat)) (s : Store) : Store :=
  mkStore (vertices s) (trees s) (lists s) (classes s) v.

Definition init_store (g : Graph.t) : Store := mkStore g [] [] [] [].

(** ** The monad of computations

    A computation takes a store and yields the list of its possible
    outcomes: the only source of several outcomes is the choice of the
    pivot, [next(iter(s))], which Python leaves unspecified. *)

Definition M (A : Type) : Type := Store → list (Res (A * Store)).

Definition ret {A} (a : A) : M A := λ s, [Ok (a, s)].

Definition bind {A B} (m : M A) (f : A → M B) : M B :=
  λ s, flat_map (λ r, match r with
                      | Ok (a, s') => f a s'
                      | Raise e => [Raise e]
                      end) (m s).

Definition raise {A} (e : exn) : M A := λ _, [Raise e].

Definition get : M Store := λ s, [Ok (s, s)].

Definition modify (f : Store → Store) : M unit := λ s, [Ok (tt, f s)].

Definition choose {A} (xs : list A) : M A := λ s, (λ x, Ok (x, s)) <$> xs.

Definition lift {A} (r : Res A) : M A :=
  match r with
  | Ok a => ret a
  | Raise e => raise e
  end.

(** An attribute access on a value that may be [None]. *)
Definition not_none {A} (o : option A) : M A :=
  match o with
  | Some a => ret a
  | None => raise AttributeError
  end.

Declare Scope md_scope.
Delimit Scope md_scope with md.
Notation "'let*' x := m 'in' k" := (bind m (λ x, k))
  (at level 10, x name, m at level 100, k at level 200) : md_scope.
Notation "'let*' ' p := m 'in' k" := (bind m (λ p, k))
  (at level 10, p strict pattern, m at level 100, k at level 200) : md_scope.
Notation "m ;;; k" := (bind m (λ _, k))
  (at level 100, k at level 200, right associativity) : md_scope.
Local Open Scope md_scope.

(** Loops.  [for_each] is a [for] over a list that the body does not
    change; [fold_each] is the same with an accumulator; [loop] runs a
    body until it returns [inr], and raises [OutOfFuel] after [fuel]
    rounds. *)
Fixpoint for_each {A} (l : list A) (body : A → M unit) : M unit :=
  match l with
  | [] => ret tt
  | x :: l' => body x ;;; for_each l' body
  end.

Fixpoint fold_each {A B} (l : list A) (body : B → A → M B) (b : B) : M B :=
  match l with
  | [] => ret b
  | x :: l' => let* b' := body b x in fold_each l' body b'
  end.

Fixpoint loop {A B} (fuel : nat) (body : A → M (A + B)) (a : A) : M B :=
  match fuel with
  | O => raise OutOfFuel
  | S fuel' =>
      let* r := body a in
      match r with
      | inl a' => loop fuel' body a'
      | inr b => ret b
      end
  end.

(** *** Access to the store *)

Definition get_vertex (v : nat) : M Node.t :=
  let* s := get in
  match vertices s !! v with
  | Some n => ret n
  | None => raise Dangling
  end.

Definition vertex_upd (v : nat) (f : Node.t → Node.t) : M unit :=
  get_vertex v ;;; modify (λ s, set_vertices (alter f v (vertices s)) s).

Definition get_tree (u : nat) : M Tree.t :=
  let* s := get in
  match trees s !! u with
  | Some x => ret x
  | None => raise Dangling
  end.

Definition tree_upd (u : nat) (f : Tree.t → Tree.t) : M unit :=
  let* x := get_tree u in modify (λ s, set_trees (<[u := f x]> (trees s)) s).

Definition get_list (l : nat) : M (list nat) :=
  let* s := get in
  match lists s !! l with
  | Some x => ret x
  | None => raise Dangling
  end.

Definition list_set (l : nat) (v : list nat) : M unit :=
  get_list l ;;; modify (λ s, set_lists (<[l := v]> (lists s)) s).

Definition list_new (v : list nat) : M nat :=
  let* s := get in
  modify (set_lists (lists s ++ [v])) ;;;
  ret (length (lists s)).

Definition get_class (c : nat) : M PartitionClass.t :=
  let* s := get in
  match classes s !! c with
  | Some x => ret x
  | None => raise Dangling
  end.

Definition class_upd (c : nat) (f : PartitionClass.t → PartitionClass.t) : M unit :=
  let* x := get_class c in modify (λ s, set_classes (<[c := f x]> (classes s)) s).

(** [PartitionClass(nodes)] *)
Definition new_PartitionClass (nodes : gset nat) : M nat :=
  let* s := get in
  modify (set_classes (classes s ++ [PartitionClass.mk nodes None None])) ;;;
  ret (length (classes s)).

Definition get_head (p : nat) : M (option nat) :=
  let* s := get in
  match partitions s !! p with
  | Some h => ret h
  | None => raise Dangling
  end.

Definition set_head (p : nat) (h : option nat) : M unit :=
  get_head p ;;; modify (λ s, set_partitions (<[p := h]> (partitions s)) s).

(** [Partition()] *)
Definition new_Partition : M nat :=
  let* s := get in
  modify (set_partitions (partitions s ++ [None])) ;;;
  ret (length (partitions s)).

(** ** Partition *)

Module Partition.

Definition prepend (self p_class : nat) : M unit :=
  let* h := get_head self in
  match h with
  | Some h' =>
      class_upd p_class (PartitionClass.set_next (Some h')) ;;;
      class_upd h' (PartitionClass.set_previous (Some p_class))
  | None => ret tt
  end ;;;
  set_head self (Some p_class).

Definition get_first (self : nat) : M (option nat) := get_head self.

Definition pop_first (self : nat) : M (option nat) :=
  let* h := get_head self in
  match h with
  | None => ret None
  | Some old_head =>
      let* c := get_class old_head in
      match PartitionClass.next c with
      | Some nxt =>
          class_upd nxt (PartitionClass.set_previous None) ;;;
          set_head self (Some nxt) ;;;
          class_upd old_head (PartitionClass.set_next None) ;;;
          ret (Some old_head)
      | None =>
          set_head self None ;;;
          ret (Some old_head)
      end
  end.

Definition replace (self old_p_class p_class_a p_class_b : nat) : M unit :=
  class_upd p_class_a (PartitionClass.set_next (Some p_class_b)) ;;;
  class_upd p_class_b (PartitionClass.set_previous (Some p_class_a)) ;;;
  let* old := get_class old_p_class in
  match PartitionClass.previous old with
  | None => set_head self (Some p_class_a)
  | Some prv =>
      class_upd prv (PartitionClass.set_next (Some p_class_a)) ;;;
      class_upd p_class_a (PartitionClass.set_previous (Some prv))
  end ;;;
  let* old := get_class old_p_class in
  match PartitionClass.next old with
  | Some nxt =>
      class_upd nxt (PartitionClass.set_previous (Some p_class_b)) ;;;
      class_upd p_class_b (PartitionClass.set_next (Some nxt))
  | None => ret tt
  end.

(** [for p_class in self: body(p_class)]: the generator keeps the current
    get_class and reads its [next] attribute after the body has run. *)
Definition for_classes (fuel : nat) (self : nat) (body : nat → M unit) : M unit :=
  let* h := get_head self in
  loop fuel (λ cur : option nat,
    match cur with
    | None => ret (inr tt)
    | Some c =>
        body c ;;;
        let* x := get_class c in
        ret (inl (PartitionClass.next x))
    end) h.

Definition flatten (fuel : nat) (self : nat) : M (gset nat) :=
  let* h := get_head self in
  loop fuel (λ st : option nat * gset nat,
    match st.1 with
    | None => ret (inr st.2)
    | Some c =>
        let* x := get_class c in
        ret (inl (PartitionClass.next x, st.2 ∪ PartitionClass.nodes x))
    end) (h, ∅).

Definition is_empty (self : nat) : M bool :=
  let* h := get_head self in ret (bool_decide (h = None)).

End Partition.

(** ** Tree *)

(** [Tree(node_type, node)] *)
Definition new_Tree (node_type : Type_) (node : payload) : M nat :=
  let* l := list_new [] in
  let* s := get in
  modify (set_trees (trees s ++
    [Tree.mk node node_type None l false None None None None 0 None])) ;;;
  ret (length (trees s)).

(** The state of the generator [Tree.__iter__], a stack of suspended
    calls: [Start n] is the call on [n] before its [yield self], [Fresh n]
    the call suspended at [yield self] ([self.children] is read when it
    resumes), [Iter l i] the loop [for child in self.children] over the
    list object [l], about to read position [i].  A list that grows or
    shrinks under the loop is read as Python's list iterator reads it. *)
Inductive frame :=
  | Start (n : nat)
  | Fresh (n : nat)
  | Iter (l : nat) (i : nat).

Definition gen_next (fuel : nat) (stk : list frame) : M (option (nat * list frame)) :=
  loop fuel (λ stk : list frame,
    match stk with
    | [] => ret (inr None)
    | Start n :: rest => ret (inr (Some (n, Fresh n :: rest)))
    | Fresh n :: rest =>
        let* x := get_tree n in
        ret (inl (Iter (Tree.children x) 0 :: rest))
    | Iter l i :: rest =>
        let* cs := get_list l in
        match cs !! i with
        | Some c => ret (inl (Start c :: Iter l (S i) :: rest))
        | None => ret (inl rest)
        end
    end) stk.

(** [for t_node in self: acc = body(acc, t_node)] *)
Definition fold_tree {B} (fuel : nat) (self : nat) (body : B → nat → M B) (b : B) : M B :=
  loop fuel (λ st : list frame * B,
    let* r := gen_next fuel st.1 in
    match r with
    | None => ret (inr st.2)
    | Some (n, stk') =>
        let* b' := body st.2 n in
        ret (inl (stk', b'))
    end) ([Start self], b).

Definition for_tree (fuel : nat) (self : nat) (body : nat → M unit) : M unit :=
  fold_tree fuel self (λ _ n, body n) tt.

Definition is_leaf (u : nat) : M bool :=
  let* x := get_tree u in ret (bool_decide (Tree.type x = NODE)).

(** [for leaf in self.leaves(): acc = body(acc, leaf)] *)
Definition fold_leaves {B} (fuel : nat) (self : nat) (body : B → nat → M B) (b : B) : M B :=
  fold_tree fuel self (λ acc n,
    let* lf := is_leaf n in
    if lf : bool then body acc n else ret acc) b.

Definition for_leaves (fuel : nat) (self : nat) (body : nat → M unit) : M unit :=
  fold_leaves fuel self (λ _ n, body n) tt.

(** [list(self.leaves())] *)
Definition leaves (fuel : nat) (self : nat) : M (list nat) :=
  fold_leaves fuel self (λ acc n, ret (acc ++ [n])) [].

(** [next(self.leaves())] *)
Definition first_leaf (fuel : nat) (self : nat) : M nat :=
  loop fuel (λ stk : list frame,
    let* r := gen_next fuel stk in
    match r with
    | None => raise StopIteration
    | Some (n, stk') =>
        let* lf := is_leaf n in
        if lf : bool then ret (inr n) else ret (inl stk')
    end) [Start self].

Definition insert (self child : nat) : M unit :=
  let* x := get_tree self in
  let* cs := get_list (Tree.children x) in
  list_set (Tree.children x) (cs ++ [child]) ;;;
  tree_upd child (Tree.set_parent (Some self)).

(** [self.children] as a value, and [self.children.remove(child)] *)
Definition children_of (self : nat) : M (list nat) :=
  let* x := get_tree self in get_list (Tree.children x).

Definition remove_child (self child : nat) : M unit :=
  let* x := get_tree self in
  let* cs := get_list (Tree.children x) in
  match Py.remove child cs with
  | Some cs' => list_set (Tree.children x) cs'
  | None => raise ValueError
  end.

(** [self.children = v]: a new list object *)
Definition assign_children (self : nat) (v : list nat) : M unit :=
  let* l := list_new v in
  tree_upd self (Tree.set_children l).

Definition get_root (fuel : nat) (self : nat) : M nat :=
  loop fuel (λ u : nat,
    let* x := get_tree u in
    match Tree.parent x with
    | Some p => ret (inl p)
    | None => ret (inr u)
    end) self.

Definition is_degenerate (self : nat) : M bool :=
  let* x := get_tree self in
  ret (bool_decide (Tree.type x = PARALLEL) || bool_decide (Tree.type x = SERIES)).

Definition group_children (self : nat) (group_fn : nat → M bool) : M (list nat * list nat) :=
  let* cs := children_of self in
  fold_each cs (λ (acc : list nat * list nat) child,
    let* hit := group_fn child in
    if hit : bool then ret (acc.1 ++ [child], acc.2)
    else ret (acc.1, acc.2 ++ [child])) ([], []).

Definition replace_children (self : nat) (children : list nat) : M nat :=
  let* x := get_tree self in
  let* new_node := new_Tree (Tree.type x) PNone in
  let* c0 := lift (getitem children 0) in
  let* x0 := get_tree c0 in
  tree_upd new_node (Tree.set_tree_index (Tree.tree_index x0)) ;;;
  for_each children (λ child,
    insert new_node child ;;;
    remove_child self child) ;;;
  insert self new_node ;;;
  ret new_node.

Definition set_leaf_connectivity (fuel : nat) (u : nat) (k : nat) (c : Connectivity) : M unit :=
  for_leaves fuel u (λ leaf, tree_upd leaf (Tree.set_connectivity (Some (k, c)))).

Definition label_by_component (fuel : nat) (self : nat) (connectivity : Connectivity)
    (number_of_components : nat) : M nat :=
  let* x := get_tree self in
  if bool_decide (Tree.type x = PARALLEL ∧ connectivity = COMPONENT
                  ∨ Tree.type x = SERIES ∧ connectivity = CO_COMPONENT)
  then
    let* cs := children_of self in
    fold_each cs (λ n child,
      set_leaf_connectivity fuel child n connectivity ;;;
      ret (S n)) number_of_components
  else
    set_leaf_connectivity fuel self number_of_components connectivity ;;;
    ret (S number_of_components).

Definition is_marked (u : nat) : M bool :=
  let* x := get_tree u in ret (Tree.is_marked x).

Definition has_label (u : nat) (l : Label) : M bool :=
  let* x := get_tree u in ret (bool_decide (Tree.label x = Some l)).

Definition dead_or_zombie (u : nat) : M bool :=
  let* x := get_tree u in
  ret (bool_decide (Tree.label x = Some DEAD) || bool_decide (Tree.label x = Some ZOMBIE)).

(** The vertex a leaf stands for: [y.node] used as a [Node]. *)
Definition leaf_vertex (y : nat) : M nat :=
  let* x := get_tree y in
  match Tree.node x with
  | PVertex v => ret v
  | _ => raise AttributeError
  end.

(** [set(leaf.node for tree in trees for leaf in tree.leaves())], as far
    as it can meet a set of vertices. *)
Definition leaf_vertices (fuel : nat) (ts : list nat) : M (gset nat) :=
  fold_each ts (λ acc t,
    fold_leaves fuel t (λ (acc : gset nat) leaf,
      let* x := get_tree leaf in
      match Tree.node x with
      | PVertex v => ret ({[v]} ∪ acc)
      | _ => ret acc
      end) acc) ∅.

(** ** tree_refinement *)

(** The three sets kept while the active list of one leaf is processed. *)
Record marks := mkMarks {
  marked_leaves : gset nat;
  marked_nodes : gset nat;
  unmarked_nodes_with_a_marked_child : gset nat
}.

Definition incr_mark_count (u : nat) : M unit :=
  tree_upd u (λ x, Tree.set_mark_count (S (Tree.mark_count x)) x).

(** [for node in y.node.active_alpha: ...] *)
Definition mark_leaves (active : gset nat) : M marks :=
  fold_each (Py.iter active) (λ mk node,
    let* n := get_vertex node in
    let* c := not_none (Node.container n) in
    tree_upd c (Tree.set_is_marked true) ;;;
    let mk := mkMarks ({[c]} ∪ marked_leaves mk) (marked_nodes mk)
                      (unmarked_nodes_with_a_marked_child mk) in
    let* x := get_tree c in
    match Tree.parent x with
    | Some p =>
        incr_mark_count p ;;;
        ret (mkMarks (marked_leaves mk) (marked_nodes mk)
                     ({[p]} ∪ unmarked_nodes_with_a_marked_child mk))
    | None => ret mk
    end) (mkMarks ∅ ∅ ∅).

(** [any(c.is_marked for c in parent.children)] *)
Definition any_marked (cs : list nat) : M bool :=
  fold_each cs (λ (found : bool) c,
    if found then ret true else is_marked c) false.

(** The [while parent is not None] walk from one marked leaf. *)
Definition mark_ancestors (fuel : nat) (t_node : nat) (mk : marks) : M marks :=
  let* x := get_tree t_node in
  loop fuel (λ st : option nat * marks,
    let mk := st.2 in
    match st.1 with
    | None => ret (inr mk)
    | Some parent =>
        let* px := get_tree parent in
        let* cs := get_list (Tree.children px) in
        if bool_decide (Tree.mark_count px = length cs) then
          let* mk :=
            match Tree.parent px with
            | Some pp =>
                if negb (Tree.is_marked px) then
                  incr_mark_count pp ;;;
                  let* ppx := get_tree pp in
                  if negb (Tree.is_marked ppx)
                  then ret (mkMarks (marked_leaves mk) (marked_nodes mk)
                              ({[pp]} ∪ unmarked_nodes_with_a_marked_child mk))
                  else ret mk
                else ret mk
            | None => ret mk
            end in
          tree_upd parent (Tree.set_is_marked true) ;;;
          ret (inl (Tree.parent px,
                    mkMarks (marked_leaves mk) ({[parent]} ∪ marked_nodes mk)
                            (unmarked_nodes_with_a_marked_child mk ∖ {[parent]})))
        else
          let* b := any_marked cs in
          if b : bool
          then ret (inr (mkMarks (marked_leaves mk) (marked_nodes mk)
                           ({[parent]} ∪ unmarked_nodes_with_a_marked_child mk)))
          else ret (inr mk)
    end) (Tree.parent x, mk).

(** The body of [for u in unmarked_nodes_with_a_marked_child]. *)
Definition split_node (u : nat) : M unit :=
  let* '(a, b) := group_children u is_marked in
  let* dg := is_degenerate u in
  (if bool_decide (1 < length a) && dg
   then let* n := replace_children u a in tree_upd n (Tree.set_is_marked true)
   else ret tt) ;;;
  let* dg := is_degenerate u in
  (if bool_decide (1 < length b) && dg
   then let* n := replace_children u b in tree_upd n (Tree.set_is_marked false)
   else ret tt) ;;;
  let* x := get_tree u in
  if bool_decide (Tree.label x = Some DEAD) then ret tt
  else
    tree_upd u (Tree.set_label (Some DEAD)) ;;;
    let* '(marked, unmarked) := group_children u is_marked in
    let* x := get_tree u in
    if bool_decide (Tree.tree_index x = Some 1)
    then assign_children u (marked ++ unmarked)
    else assign_children u (unmarked ++ marked).

(** The body of [for y in tree.leaves()]. *)
Definition refine_leaf (fuel : nat) (all_leaves : gset nat) (y : nat) : M unit :=
  let* v := leaf_vertex y in
  let* n := get_vertex v in
  vertex_upd v (Node.set_active_alpha (Node.alpha n ∩ all_leaves)) ;;;
  let* n := get_vertex v in
  vertex_upd v (Node.set_alpha (Node.alpha n ∖ Node.active_alpha n)) ;;;
  let* n := get_vertex v in
  let* mk := mark_leaves (Node.active_alpha n) in
  let* mk := fold_each (Py.iter (marked_leaves mk))
               (λ mk t_node, mark_ancestors fuel t_node mk) mk in
  for_each (Py.iter (unmarked_nodes_with_a_marked_child mk)) split_node ;;;
  for_each (Py.iter (marked_leaves mk ∪ marked_nodes mk
                     ∪ unmarked_nodes_with_a_marked_child mk))
    (λ t_node,
      tree_upd t_node (Tree.set_is_marked false) ;;;
      tree_upd t_node (Tree.set_mark_count 0)).

Definition tree_refinement (fuel : nat) (trees : list nat) : M unit :=
  let* all_leaves := leaf_vertices fuel trees in
  for_each (imap (λ i t, (i, t)) trees) (λ '(i, t),
    for_tree fuel t (λ u, tree_upd u (Tree.set_tree_index (Some i)))) ;;;
  for_each trees (λ t, for_leaves fuel t (refine_leaf fuel all_leaves)).

(** ** factorize *)

(** [for t_node in u.ancestors(): ...] *)
Definition zombify_ancestors (fuel : nat) (u : nat) : M unit :=
  loop fuel (λ cur : nat,
    let* x := get_tree cur in
    match Tree.parent x with
    | None => ret (inr tt)
    | Some t_node =>
        let* tx := get_tree t_node in
        if bool_decide (Tree.label tx = Some ZOMBIE) then ret (inr tt)
        else
          (if bool_decide (Tree.label tx = Some DEAD) then ret tt
           else tree_upd t_node (Tree.set_label (Some ZOMBIE))) ;;;
          ret (inl t_node)
    end) u.

Definition reorder_zombie (i : nat) (u : nat) : M unit :=
  let* '(a, b) := group_children u dead_or_zombie in
  let* dg := is_degenerate u in
  (if bool_decide (1 < length b) && dg
   then replace_children u b ;;; ret tt
   else ret tt) ;;;
  let* '(a, b) := group_children u dead_or_zombie in
  if bool_decide (i = 1)
  then assign_children u (a ++ b)
  else assign_children u (b ++ a).

Definition factorize (fuel : nat) (trees : list nat) : M unit :=
  for_each (imap (λ i t, (i, t)) trees) (λ '(i, tree_i),
    for_tree fuel tree_i (λ u,
      let* d := has_label u DEAD in
      if d : bool then zombify_ancestors fuel u else ret tt) ;;;
    for_tree fuel tree_i (λ u,
      let* z := has_label u ZOMBIE in
      if z : bool then reorder_zombie i u else ret tt) ;;;
    for_tree fuel tree_i (λ t_node,
      let* dz := dead_or_zombie t_node in
      if dz : bool then
        tree_upd t_node (Tree.set_label None) ;;;
        let* cs := children_of t_node in
        for_each cs (λ child, tree_upd child (Tree.set_parent None))
      else ret tt)).

(** ** The pivot factorizing permutation *)

Module CoComponent.
Record t := mk { co_component : list nat; mu : Z }.
End CoComponent.

Module Component.
Record t := mk { component : list nat; mu : Z; rho : Z }.
End Component.

Record PivotFactorizingPermutation := mkSigma {
  pivot : nat;
  co_components : list CoComponent.t;
  components : list Component.t
}.

(** [itertools.groupby]: maximal runs of consecutive equal keys. *)
Fixpoint groupby_go {K} `{EqDecision K} (key : K) (run : list nat)
    (l : list (K * nat)) : list (list nat) :=
  match l with
  | [] => [run]
  | (k, x) :: l' =>
      if decide (k = key) then groupby_go key (run ++ [x]) l'
      else run :: groupby_go k [x] l'
  end.

Definition groupby {K} `{EqDecision K} (l : list (K * nat)) : list (list nat) :=
  match l with
  | [] => []
  | (k, x) :: l' => groupby_go k [x] l'
  end.

(** [[frozenset(c) for key, c in groupby(leaves, key=lambda x: x.connectivity)]] *)
Definition group_by_connectivity (leaves : list nat) : M (list (list nat)) :=
  let* keyed := fold_each leaves (λ acc y,
                  let* x := get_tree y in
                  ret (acc ++ [(Tree.connectivity x, y)])) [] in
  ret (groupby keyed).

(** [is_adjacent(u, v)]: [u.node in v.node.adjacent] *)
Definition is_adjacent (u v : nat) : M bool :=
  let* ux := get_tree u in
  let* v' := leaf_vertex v in
  let* n := get_vertex v' in
  match Tree.node ux with
  | PVertex u' => ret (bool_decide (u' ∈ Node.adjacent n))
  | _ => ret false
  end.

(** [is_adjacent_to_component(any, node, component)] and
    [is_adjacent_to_component(all, node, component)] *)
Definition is_adjacent_to_any (node : nat) (component : list nat) : M bool :=
  fold_each component (λ (found : bool) n,
    if found then ret true else is_adjacent node n) false.

Definition is_adjacent_to_all (node : nat) (component : list nat) : M bool :=
  fold_each component (λ (sofar : bool) n,
    if sofar then is_adjacent node n else ret false) true.

(** [j = b; while j > 0 and not is_adjacent_to_component(any, y, components[j - 1]): j -= 1] *)
Fixpoint mu_of_co_leaf (y : nat) (components : list (list nat)) (j : nat) : M nat :=
  match j with
  | O => ret O
  | S j' =>
      let* c := lift (getitem components (Z.of_nat j - 1)) in
      let* adj := is_adjacent_to_any y c in
      if adj : bool then ret j else mu_of_co_leaf y components j'
  end.

(** [j = a; while j > 0 and is_adjacent_to_component(all, y, co_components[j - 1]): j -= 1] *)
Fixpoint mu_of_leaf (y : nat) (co_components : list (list nat)) (j : nat) : M nat :=
  match j with
  | O => ret O
  | S j' =>
      let* c := lift (getitem co_components (Z.of_nat j - 1)) in
      let* adj := is_adjacent_to_all y c in
      if adj : bool then mu_of_leaf y co_components j' else ret j
  end.

(** [for j in range(b, i, -1): if ...: y.rho = j; break], after [y.rho = 0] *)
Fixpoint rho_of_leaf (y : nat) (components : list (list nat)) (i : nat) (j : nat) : M nat :=
  match j with
  | O => ret O
  | S j' =>
      if bool_decide (j ≤ i) then ret O
      else
        let* c := lift (getitem components (Z.of_nat j - 1)) in
        let* adj := is_adjacent_to_any y c in
        if adj : bool then ret j else rho_of_leaf y components i j'
  end.

(** [max(node.mu for node in c)]; every leaf of a (co-)component has had
    its [mu] (and [rho]) assigned when this is evaluated, an unassigned
    attribute is reported as a [TypeError]. *)
Definition max_attr (attr : Tree.t → option nat) (c : list nat) : M Z :=
  let* vs := fold_each c (λ acc y,
               let* x := get_tree y in
               match attr x with
               | Some v => ret (acc ++ [Z.of_nat v])
               | None => raise TypeError
               end) [] in
  lift (Py.max vs).

Definition pivot_factorizing_permutation (fuel : nat) (trees : list nat)
    : M PivotFactorizingPermutation :=
  let rest := imap (λ i t, (S i, t)) (drop 1 trees) in
  let* '(co_leaves, leaves_) :=
    fold_each rest (λ (acc : list nat * list nat) '(i, t),
      let* ls := leaves fuel t in
      if bool_decide (i = 1) then ret (acc.1 ++ ls, acc.2)
      else ret (acc.1, acc.2 ++ ls)) ([], []) in
  let* co_components := group_by_connectivity co_leaves in
  let co_components := reverse co_components in
  let* components := group_by_connectivity leaves_ in
  let a := length co_components in
  let b := length components in
  for_each rest (λ '(i, t),
    if bool_decide (i = 1) then
      for_leaves fuel t (λ y,
        let* j := mu_of_co_leaf y components b in
        tree_upd y (Tree.set_mu (Some j)))
    else
      for_leaves fuel t (λ y,
        let* j := mu_of_leaf y co_components a in
        tree_upd y (Tree.set_mu (Some j)))) ;;;
  for_each (seq 1 b) (λ i,
    let* c := lift (getitem components (Z.of_nat i - 1)) in
    for_each c (λ y,
      tree_upd y (Tree.set_rho (Some 0)) ;;;
      let* j := rho_of_leaf y components i b in
      tree_upd y (Tree.set_rho (Some j)))) ;;;
  let* co_components := fold_each co_components (λ acc cc,
      let* m := max_attr Tree.mu cc in
      ret (acc ++ [CoComponent.mk cc m])) [] in
  let* components := fold_each components (λ acc c,
      let* m := max_attr Tree.mu c in
      let* r := max_attr Tree.rho c in
      ret (acc ++ [Component.mk c m r])) [] in
  let* t0 := lift (getitem trees 0) in
  ret (mkSigma t0 co_components components).

(** ** build_spine

    The index computations of [build_spine] read [sigma] only.  They are
    written in a monad [W] that logs every subscript
    [sigma.co_components[i - 1]] ([ReadCo i]) and
    [sigma.components[i - 1]] ([ReadComp i]), and the values of [l_], [r_]
    at the head of each round of the [while True] loop ([PrimeIter]). *)

Inductive event :=
  | ReadCo (i : Z)
  | ReadComp (i : Z)
  | PrimeIter (l_ r_ : Z).

Definition W (A : Type) : Type := list event * Res A.

Definition wret {A} (a : A) : W A := ([], Ok a).

Definition wbind {A B} (m : W A) (f : A → W B) : W B :=
  match m.2 with
  | Ok a => (m.1 ++ (f a).1, (f a).2)
  | Raise e => (m.1, Raise e)
  end.

Definition wraise {A} (e : exn) : W A := ([], Raise e).

Definition tell (e : event) : W unit := ([e], Ok tt).

Definition wlift {A} (r : Res A) : W A := ([], r).

Declare Scope w_scope.
Delimit Scope w_scope with w.
Notation "'let*' x := m 'in' k" := (wbind m (λ x, k))
  (at level 10, x name, m at level 100, k at level 200) : w_scope.
Notation "'let*' ' p := m 'in' k" := (wbind m (λ p, k))
  (at level 10, p strict pattern, m at level 100, k at level 200) : w_scope.
Notation "m ;;; k" := (wbind m (λ _, k))
  (at level 100, k at level 200, right associativity) : w_scope.

Module Spine.
Section spine.
Local Open Scope w_scope.
Local Open Scope Z_scope.

Variable sigma : PivotFactorizingPermutation.

(** [sigma.co_components[i - 1]] and [sigma.components[i - 1]] *)
Definition read_co (i : Z) : W CoComponent.t :=
  tell (ReadCo i) ;;; wlift (getitem (co_components sigma) (i - 1)).

Definition read_comp (i : Z) : W Component.t :=
  tell (ReadComp i) ;;; wlift (getitem (components sigma) (i - 1)).

Fixpoint wmap {A B} (f : A → W B) (l : list A) : W (list B) :=
  match l with
  | [] => wret []
  | x :: l' => let* y := f x in let* ys := wmap f l' in wret (y :: ys)
  end.

(** [max(f(i) for i in range(lo, hi + 1))] *)
Definition max_over {A} (read : Z → W A) (f : A → Z) (lo hi : Z) : W Z :=
  let* vs := wmap (λ i, let* c := read i in wret (f c)) (Py.range lo (hi + 1)) in
  wlift (Py.max vs).

(** The local variables of one round of the outer loop. *)
Record frame_ := mkFrame {
  l : Z;
  r : Z;
  module : list (list nat);
  contains_co_component : bool;
  contains_component : bool
}.

Definition a : Z := Z.of_nat (length (co_components sigma)).
Definition b : Z := Z.of_nat (length (components sigma)).

(** [while l <= a and sigma.co_components[l - 1].mu == r: ...] *)
Fixpoint series_scan (fuel : nat) (st : frame_) : W frame_ :=
  match fuel with
  | O => wraise OutOfFuel
  | S fuel' =>
      if l st <=? a then
        let* c := read_co (l st) in
        if CoComponent.mu c =? r st then
          let* c' := read_co (l st) in
          series_scan fuel' (mkFrame (l st + 1) (r st)
            (module st ++ [CoComponent.co_component c']) true (contains_component st))
        else wret st
      else wret st
  end.

(** [while r <= b and sigma.components[r - 1].mu == l
      and sigma.components[r - 1].rho == 0: ...] *)
Fixpoint parallel_scan (fuel : nat) (st : frame_) : W frame_ :=
  match fuel with
  | O => wraise OutOfFuel
  | S fuel' =>
      if r st <=? b then
        let* c := read_comp (r st) in
        if Component.mu c =? l st then
          let* c' := read_comp (r st) in
          if Component.rho c' =? 0 then
            let* c'' := read_comp (r st) in
            parallel_scan fuel' (mkFrame (l st) (r st + 1)
              (module st ++ [Component.component c'']) (contains_co_component st) true)
          else wret st
        else wret st
      else wret st
  end.

(** The [while True] loop of the PRIME branch; returns [(t, m)]. *)
Fixpoint prime_loop (fuel : nat) (l_ r_ t m : Z) : W (Z * Z) :=
  match fuel with
  | O => wraise OutOfFuel
  | S fuel' =>
      tell (PrimeIter l_ r_) ;;;
      let t_ := t in
      let m_ := m in
      let* x := max_over read_comp Component.mu r_ m in
      let t := Z.max x t in
      let* y := max_over read_co CoComponent.mu l_ t in
      let* z := max_over read_comp Component.rho r_ m in
      let m := Z.max (Z.max y z) m in
      if (t_ =? t) && (m_ =? m) then wret (t, m)
      else prime_loop fuel' t_ m_ t m
  end.

(** The PRIME branch: from [l += 1; r += 1] to [l, r = t, m]. *)
Definition prime_branch (fuel : nat) (st : frame_) : W frame_ :=
  let l1 := l st + 1 in
  let r1 := r st + 1 in
  let* c := read_comp r1 in
  let t := Z.max (Component.mu c) l1 in
  let* c' := read_co l1 in
  let* c'' := read_comp r1 in
  let m := Z.max (Z.max (CoComponent.mu c') (Component.rho c'')) r1 in
  let* '(t, m) := prime_loop fuel l1 r1 t m in
  let* cos := wmap (λ i, let* c := read_co i in wret (CoComponent.co_component c))
                (Py.range l1 (t + 1)) in
  let* cs := wmap (λ i, let* c := read_comp i in wret (Component.component c))
                (Py.range r1 (m + 1)) in
  wret (mkFrame t m (module st ++ cos ++ cs)
          (contains_co_component st || bool_decide (cos ≠ []))
          (contains_component st || bool_decide (cs ≠ []))).

Definition set_l (v : Z) (st : frame_) : frame_ :=
  mkFrame v (r st) (module st) (contains_co_component st) (contains_component st).
Definition set_r (v : Z) (st : frame_) : frame_ :=
  mkFrame (l st) v (module st) (contains_co_component st) (contains_component st).

(** One round of [while l != a or r != b], up to the creation of [u]. *)
Definition spine_step (fuel : nat) (l0 r0 : Z) : W frame_ :=
  let* st := series_scan fuel (mkFrame (l0 + 1) r0 [] false false) in
  let st := set_l (l st - 1) st in
  let* st :=
    if bool_decide (length (module st) = 0%nat) then
      let* st := parallel_scan fuel (set_r (r st + 1) st) in
      wret (set_r (r st - 1) st)
    else wret st in
  if bool_decide (length (module st) = 0%nat) then prime_branch fuel st
  else wret st.

(** The subscripts read by a whole run of [build_spine]. *)
Fixpoint spine_trace (fuel : nat) (l0 r0 : Z) : W unit :=
  match fuel with
  | O => wraise OutOfFuel
  | S fuel' =>
      if bool_decide (l0 ≠ a ∨ r0 ≠ b) then
        let* st := spine_step fuel l0 r0 in
        spine_trace fuel' (l st) (r st)
      else wret tt
  end.

End spine.
End Spine.

(** The node type chosen for [u]. *)
Definition spine_type (st : Spine.frame_) : Type_ :=
  if negb (Spine.contains_component st) then SERIES
  else if negb (Spine.contains_co_component st) then PARALLEL
  else PRIME.

Definition build_spine (fuel : nat) (sigma : PivotFactorizingPermutation) : M nat :=
  loop fuel (λ '(tree, l0, r0),
    if bool_decide (l0 ≠ Spine.a sigma ∨ r0 ≠ Spine.b sigma) then
      let* st := lift (Spine.spine_step sigma fuel l0 r0).2 in
      let* u := new_Tree NODE PNone in
      for_each (Spine.module st) (λ element,
        let* c := new_Tree NODE (PComp element) in insert u c) ;;;
      tree_upd u (Tree.set_type (spine_type st)) ;;;
      insert u tree ;;;
      ret (inl (u, Spine.l st, Spine.r st))
    else ret (inr tree)) (pivot sigma, 0%Z, 0%Z).

(** ** conquer_md_tree *)

(** The body of [for leaf in tree.leaves()] in the replacement of the
    (co-)components; [replaced] is threaded through the loop. *)
Definition replace_component (fuel : nat) (replaced : gset nat) (leaf : nat)
    : M (gset nat) :=
  let* x := get_tree leaf in
  match Tree.node x with
  | PVertex _ => ret replaced
  | PNone => raise TypeError
  | PComp c =>
      let* '(replaced, _) :=
        fold_each c (λ '(replaced, not_replaced) t_node,
          if bool_decide (t_node ∈ replaced) then ret (replaced, not_replaced)
          else if bool_decide (t_node ∈ not_replaced) then
            let* root := get_root fuel t_node in
            let* lx := get_tree leaf in
            let* lp := not_none (Tree.parent lx) in
            insert lp root ;;;
            let* ls := leaves fuel root in
            let not_replaced : gset nat := not_replaced ∖ list_to_set ls in
            let* ls := leaves fuel root in
            ret (list_to_set ls ∪ replaced, not_replaced)
          else ret (replaced, not_replaced))
          (replaced, (list_to_set c : gset nat)) in
      ret replaced
  end.

(** The body of [for t_node in tree] in the final pass. *)
Definition merge_into_parent (t_node : nat) : M unit :=
  let* x := get_tree t_node in
  match Tree.parent x with
  | None => ret tt
  | Some p =>
      let* px := get_tree p in
      let* dg := is_degenerate t_node in
      if bool_decide (Tree.type x = Tree.type px) && dg then
        let* cs := children_of t_node in
        for_each cs (λ child,
          let* x := get_tree t_node in
          let* p := not_none (Tree.parent x) in
          insert p child) ;;;
        let* x := get_tree t_node in
        let* p := not_none (Tree.parent x) in
        remove_child p t_node
      else ret tt
  end.

Definition conquer_md_tree (fuel : nat) (trees : list nat) : M nat :=
  let* all_leaves_except_last_tree :=
    leaf_vertices fuel (take (length trees - 1) trees) in
  let k : Z := (Z.of_nat (length trees) - 1)%Z in
  let* last := lift (getitem trees (-1)) in
  let* y := first_leaf fuel last in
  let* v := leaf_vertex y in
  let* n := get_vertex v in
  let k_ : Z :=
    if bool_decide (0 < size (Node.alpha n ∩ all_leaves_except_last_tree))
    then k else (k - 1)%Z in
  let trees_ := take (Z.to_nat (k_ + 1)) trees in
  fold_each (imap (λ i t, (S i, t)) (drop 1 trees_)) (λ '(a, b) '(i, t),
    if bool_decide (i = 1) then
      let* a := label_by_component fuel t CO_COMPONENT 0 in ret (a, b)
    else
      let* b := label_by_component fuel t COMPONENT b in ret (a, b)) (0, 0) ;;;
  tree_refinement fuel trees_ ;;;
  factorize fuel trees_ ;;;
  let* sigma := pivot_factorizing_permutation fuel trees_ in
  let* tree_ := build_spine fuel sigma in
  fold_leaves fuel tree_ (replace_component fuel) ∅ ;;;
  let* ls := leaves fuel tree_ in
  for_each ls (λ leaf,
    let* x := get_tree leaf in
    match Tree.node x with
    | PVertex _ => ret tt
    | _ => let* p := not_none (Tree.parent x) in remove_child p leaf
    end) ;;;
  let* tree_ :=
    if bool_decide (k_ = (k - 1)%Z) then
      let* tk := lift (getitem trees k) in
      let* tkx := get_tree tk in
      if bool_decide (Tree.type tkx = PARALLEL) then
        insert tk tree_ ;;; ret tk
      else
        let* new_node := new_Tree PARALLEL PNone in
        insert new_node tree_ ;;;
        let* tk := lift (getitem trees k) in
        insert new_node tk ;;;
        ret new_node
    else ret tree_ in
  for_tree fuel tree_ merge_into_parent ;;;
  ret tree_.

(** ** divide_md_tree and md_tree *)

Section divide.

(** The pivots that [next(iter(s))] may return, among the elements of [s]
    in ascending order: all of them under [any_pivot], the least one under
    [least_pivot]. *)
Variable pick : list nat → list nat.

Definition next_iter (s : gset nat) : M nat :=
  match Py.iter s with
  | [] => raise StopIteration
  | xs => choose (pick xs)
  end.

(** The body of [for p_class in p] *)
Definition refine_class (p : nat) (x : Node.t) (p_class : nat) : M unit :=
  let* c := get_class p_class in
  let a : gset nat := PartitionClass.nodes c ∩ Node.adjacent x in
  let b : gset nat := PartitionClass.nodes c ∖ a in
  if bool_decide (size a ≠ 0) && bool_decide (size b ≠ 0) then
    let* ca := new_PartitionClass a in
    let* cb := new_PartitionClass b in
    Partition.replace p p_class ca cb
  else ret tt.

Fixpoint divide_md_tree (fuel : nat) (s : gset nat) (p : nat) : M (nat * nat) :=
  match fuel with
  | O => raise OutOfFuel
  | S fuel' =>
      let* x := next_iter s in
      let* s_ := Partition.flatten fuel p in
      let* nx := get_vertex x in
      for_each (Py.iter (Node.adjacent nx ∩ (s ∪ s_))) (λ y,
        vertex_upd y (Node.add_alpha_neighbor x)) ;;;
      let* nx := get_vertex x in
      Partition.for_classes fuel p (refine_class p nx) ;;;
      if bool_decide (size s = 1) && bool_decide (x ∈ s) then
        let* tree_x := new_Tree NODE (PVertex x) in
        vertex_upd x (Node.set_container (Some tree_x)) ;;;
        ret (tree_x, p)
      else
        let* nx := get_vertex x in
        let rest : gset nat := s ∖ (Node.closed_neighborhood x nx ∩ s) in
        (if negb (bool_decide (size rest = 0)) then
           let* c := new_PartitionClass rest in Partition.prepend p c
         else ret tt) ;;;
        let nbrs : gset nat := Node.adjacent nx ∩ s in
        (if negb (bool_decide (size nbrs = 0)) then
           let* c := new_PartitionClass nbrs in Partition.prepend p c
         else ret tt) ;;;
        let* tree_x := new_Tree NODE (PVertex x) in
        vertex_upd x (Node.set_container (Some tree_x)) ;;;
        let* '(trees, p) := divide_slices fuel' s p [tree_x] in
        let* t := conquer_md_tree fuel trees in
        ret (t, p)
  end
(** [while not p.is_empty() and p.get_first().nodes <= s: ...] *)
with divide_slices (fuel : nat) (s : gset nat) (p : nat) (trees : list nat)
    : M (list nat * nat) :=
  match fuel with
  | O => raise OutOfFuel
  | S fuel' =>
      let* e := Partition.is_empty p in
      if e : bool then ret (trees, p)
      else
        let* f := Partition.get_first p in
        let* f := not_none f in
        let* c := get_class f in
        if bool_decide (PartitionClass.nodes c ⊆ s) then
          let* q := Partition.pop_first p in
          let* q := not_none q in
          let* c := get_class q in
          let* '(t, p) := divide_md_tree fuel' (PartitionClass.nodes c) p in
          divide_slices fuel' s p (trees ++ [t])
        else ret (trees, p)
  end.

Definition md_tree (fuel : nat) : M nat :=
  let* s := get in
  let* p := new_Partition in
  let* '(t, _) := divide_md_tree fuel (Graph.get_nodes (vertices s)) p in
  ret t.

End divide.

Definition any_pivot (xs : list nat) : list nat := xs.
Definition least_pivot (xs : list nat) : list nat := take 1 xs.

(** [md_tree(graph)], for every choice of pivots, and under the policy
    that picks the least vertex. *)
Definition run_md_tree (fuel : nat) (g : Graph.t) : list (Res (nat * Store)) :=
  md_tree any_pivot fuel (init_store g).

Definition run_md_tree_least (fuel : nat) (g : Graph.t) : list (Res (nat * Store)) :=
  md_tree least_pivot fuel (init_store g).

(** ** The tree that [md_tree] returns, as a value *)

Inductive mdt := MNode (ty : Type_) (pl : payload) (ch : list mdt).

(** The tree below [u], read through the [children] lists. *)
Fixpoint reify (fuel : nat) (s : Store) (u : nat) : option mdt :=
  match fuel with
  | O => None
  | S fuel' =>
      x ← trees s !! u;
      cs ← lists s !! Tree.children x;
      ch ← mapM (reify fuel' s) cs;
      Some (MNode (Tree.type x) (Tree.node x) ch)
  end.

Definition mdt_type (t : mdt) : Type_ := match t with MNode ty _ _ => ty end.
Definition mdt_children (t : mdt) : list mdt := match t with MNode _ _ ch => ch end.

(** All nodes of the tree, in the order of [Tree.__iter__]. *)
Fixpoint mdt_nodes (t : mdt) : list mdt :=
  match t with
  | MNode _ _ ch => t :: (fix go (l : list mdt) : list mdt :=
                            match l with
                            | [] => []
                            | c :: l' => mdt_nodes c ++ go l'
                            end) ch
  end.

Definition mdt_is_leaf (t : mdt) : bool := bool_decide (mdt_type t = NODE).

(** What the leaves refer to, left to right ([Tree.leaves]). *)
Definition mdt_leaves (t : mdt) : list payload :=
  (λ u, match u with MNode _ pl _ => pl end) <$> filter (λ u, mdt_is_leaf u) (mdt_nodes t).

(** The vertices among them. *)
Definition mdt_leaf_vertices (t : mdt) : list nat :=
  omap (λ pl, match pl with PVertex v => Some v | _ => None end) (mdt_leaves t).

(** The internal nodes. *)
Definition mdt_internal (t : mdt) : list mdt :=
  filter (λ u, ¬ mdt_is_leaf u) (mdt_nodes t).

(** [L] is a module of [g]: every vertex outside [L] is adjacent to all of
    [L] or to none of it. *)
Definition is_module (g : Graph.t) (L : list nat) : Prop :=
  ∀ w, w ∈ dom g → w ∉ L →
    (∀ x, x ∈ L → Graph.adj g w x) ∨ (∀ x, x ∈ L → ¬ Graph.adj g w x).

Definition is_moduleb (g : Graph.t) (L : list nat) : bool :=
  forallb (λ w, bool_decide (w ∈ L)
                || forallb (Graph.adjb g w) L
                || forallb (λ x, negb (Graph.adjb g w x)) L) (elements (dom g)).

(** The four properties of the tree of a graph. *)
Definition module_property (g : Graph.t) (t : mdt) : Prop :=
  ∀ u, u ∈ mdt_internal t → is_module g (mdt_leaf_vertices u).

Definition module_propertyb (g : Graph.t) (t : mdt) : bool :=
  forallb (λ u, is_moduleb g (mdt_leaf_vertices u)) (mdt_internal t).

Definition leaves_are_vertices (g : Graph.t) (t : mdt) : Prop :=
  mdt_leaves t ≡ₚ PVertex <$> elements (dom g).

Definition leaves_are_verticesb (g : Graph.t) (t : mdt) : bool :=
  bool_decide (length (mdt_leaf_vertices t) = length (mdt_leaves t))
  && bool_decide (merge_sort Nat.le (mdt_leaf_vertices t) = Py.iter (dom g)).

Definition same_type_child (ty : Type_) (u : mdt) : Prop :=
  mdt_type u = ty ∧ ∃ c, c ∈ mdt_children u ∧ mdt_type c = ty.

Definition no_same_type_parent (t : mdt) : Prop :=
  ∀ u, u ∈ mdt_nodes t → ¬ same_type_child SERIES u ∧ ¬ same_type_child PARALLEL u.

Definition no_same_type_parentb (t : mdt) : bool :=
  forallb (λ u,
    negb ((bool_decide (mdt_type u = SERIES) || bool_decide (mdt_type u = PARALLEL))
          && existsb (λ c, bool_decide (mdt_type c = mdt_type u)) (mdt_children u)))
    (mdt_nodes t).

Definition two_children (t : mdt) : Prop :=
  ∀ u, u ∈ mdt_internal t → 2 ≤ length (mdt_children u).

Definition two_childrenb (t : mdt) : bool :=
  forallb (λ u, bool_decide (2 ≤ length (mdt_children u))) (mdt_internal t).

(** The outcome of a run, as a value: the tree, or the exception. *)
Definition outcome (fuel : nat) (r : Res (nat * Store)) : Res (option mdt) :=
  match r with
  | Ok (t, s) => Ok (reify fuel s t)
  | Raise e => Raise e
  end.

(** ** Statements *)

(** *** build_spine: the ranges of [mu] and [rho], and of the subscripts *)

Definition in_range (sigma : PivotFactorizingPermutation) : Prop :=
  Forall (λ c, (0 ≤ CoComponent.mu c ≤ Spine.b sigma)%Z) (co_components sigma) ∧
  Forall (λ c, (0 ≤ Component.mu c ≤ Spine.a sigma)%Z
               ∧ (0 ≤ Component.rho c ≤ Spine.b sigma)%Z) (components sigma).

(** No subscript wraps around: [i - 1 >= 0], and [l_, r_ >= 1]. *)
Definition ev_low (e : event) : Prop :=
  match e with
  | ReadCo i => (1 ≤ i)%Z
  | ReadComp i => (1 ≤ i)%Z
  | PrimeIter l_ r_ => (1 ≤ l_)%Z ∧ (1 ≤ r_)%Z
  end.

(** Every subscript is in range. *)
Definition ev_ok (sigma : PivotFactorizingPermutation) (e : event) : Prop :=
  match e with
  | ReadCo i => (1 ≤ i ≤ Spine.a sigma)%Z
  | ReadComp i => (1 ≤ i ≤ Spine.b sigma)%Z
  | PrimeIter l_ r_ => (1 ≤ l_)%Z ∧ (1 ≤ r_)%Z
  end.

(** A logged computation whose events satisfy [P] and whose result, if
    any, satisfies [Q]. *)
Definition wsat {A} (P : event → Prop) (Q : A → Prop) (m : W A) : Prop :=
  Forall P m.1 ∧ ∀ x, m.2 = Ok x → Q x.

(** One co-component and one component that see each other. *)
Definition sigma_ok : PivotFactorizingPermutation :=
  mkSigma 0 [CoComponent.mk [1] 1] [Component.mk [2] 1 0].

(** No co-component, one component with [mu = 0] and [rho = 1]. *)
Definition sigma_bad : PivotFactorizingPermutation :=
  mkSigma 0 [] [Component.mk [1] 0 1].

(** *** Hoare triples for [M] *)

(** Partial correctness: every normal outcome of [m] from a store in [P]
    satisfies [Q]. *)
Definition hoare {A} (P : Store → Prop) (m : M A) (Q : A → Store → Prop) : Prop :=
  ∀ s x s', P s → Ok (x, s') ∈ m s → Q x s'.

Definition stable (I : Store → Prop) {A} (m : M A) : Prop := hoare I m (λ _, I).

(** The updates of a vertex that the code performs. *)
Inductive node_update : (Node.t → Node.t) → Prop :=
  | upd_add_alpha x : node_update (Node.add_alpha_neighbor x)
  | upd_alpha a : node_update (Node.set_alpha a)
  | upd_active_alpha a : node_update (Node.set_active_alpha a)
  | upd_container c : node_update (Node.set_container (Some c)).

(** The container of [v] is set. *)
Definition has_container (v : nat) (s : Store) : Prop :=
  ∃ n c, vertices s !! v = Some n ∧ Node.container n = Some c.

(** All scratch fields of the vertices have their initial values. *)
Definition scratch_reset (s : Store) : Prop :=
  ∀ v n, vertices s !! v = Some n →
    Node.alpha n = ∅ ∧ Node.active_alpha n = ∅ ∧ Node.container n = None.

(** *** Graphs and trees of the examples *)

Definition leaf (v : nat) : mdt := MNode NODE (PVertex v) [].

(** One edge. *)
Definition K2 : Graph.t := Graph.add_edges [(1, 2)] ∅.

(** B6: a triangle and an isolated vertex. *)
Definition B6 : Graph.t :=
  Graph.add_node 4 Node.init (Graph.add_edges [(1, 2); (1, 3); (2, 3)] ∅).

Definition is_B6_tree (t : mdt) : Prop :=
  ∃ s ch, mdt_type t = PARALLEL ∧ mdt_children t ≡ₚ [s; leaf 4] ∧
          s = MNode SERIES PNone ch ∧ ch ≡ₚ [leaf 1; leaf 2; leaf 3].

(** The pivot 1 with three pairwise non-adjacent neighbours 2, 3, 4; the
    vertex 5 sees 2 and 3, the vertex 6 sees 4. *)
Definition G1 : Graph.t :=
  Graph.add_edges [(1, 2); (1, 3); (1, 4); (2, 5); (3, 5); (4, 6)] ∅.

Definition T1 : mdt :=
  MNode PRIME PNone
    [leaf 1; MNode PARALLEL PNone [leaf 4; leaf 3; leaf 2]; leaf 5; leaf 6].

(** The pivot 1 with four pairwise non-adjacent neighbours 2, 3, 4, 5; the
    vertex 6 sees 2 and 3, the vertex 7 sees 4 and 5. *)
Definition G2 : Graph.t :=
  Graph.add_edges [(1, 2); (1, 3); (1, 4); (1, 5); (2, 6); (3, 6); (4, 7); (5, 7)] ∅.

Definition T2 : mdt :=
  MNode PRIME PNone
    [leaf 1;
     MNode PARALLEL PNone [MNode PARALLEL PNone [leaf 4; leaf 5]; leaf 3; leaf 2];
     leaf 6; leaf 7].

(** * Properties *)

(** ** Graph.add_edge *)

Section graph_facts.
Implicit Types g : gmap nat Node.t.

Lemma adj_add_node g a u v :
  Graph.adj (Graph.add_node a Node.init g) u v ↔ Graph.adj g u v.
Proof.
  unfold Graph.add_node, Graph.adj. case_decide as Hd; [done|].
  apply not_elem_of_dom in Hd.
  split; intros (nu & Hl & Hv).
  - destruct (decide (a = u)) as [->|Hne].
    + rewrite lookup_insert_eq in Hl. injection Hl as <-. set_solver.
    + rewrite lookup_insert_ne in Hl by done. eauto.
  - exists nu. split; [|done].
    rewrite lookup_insert_ne; [done|]. intros ->. congruence.
Qed.

Lemma dom_add_node g a : a ∈ dom (Graph.add_node a Node.init g).
Proof.
  unfold Graph.add_node. case_decide; [done|]. set_solver.
Qed.

Lemma adj_alter g a b u v :
  a ∈ dom g →
  Graph.adj (alter (Node.add_neighbor b) a g) u v ↔ Graph.adj g u v ∨ (u = a ∧ v = b).
Proof.
  intros [na Ha]%elem_of_dom. unfold Graph.adj.
  destruct (decide (a = u)) as [->|Hne].
  - rewrite lookup_alter_eq, Ha. simpl. split.
    + intros (nu & [= <-] & Hv). simpl in Hv. set_solver.
    + intros [(nu & [= <-] & Hv)|[_ ->]]; eexists; (split; [done|]); simpl; set_solver.
  - rewrite lookup_alter_ne by done. split; [eauto|].
    intros [?|[? _]]; [done|congruence].
Qed.

Lemma adj_add_edge g a b u v :
  Graph.adj (Graph.add_edge a b g) u v ↔
  Graph.adj g u v ∨ (u = a ∧ v = b) ∨ (u = b ∧ v = a).
Proof.
  unfold Graph.add_edge.
  set (g1 := if decide (a ∈ dom g) then g else Graph.add_node a Node.init g).
  set (g2 := if decide (b ∈ dom g1) then g1 else Graph.add_node b Node.init g1).
  assert (H1 : ∀ x y, Graph.adj g1 x y ↔ Graph.adj g x y).
  { intros. unfold g1. case_decide; [done|]. apply adj_add_node. }
  assert (Ha1 : a ∈ dom g1).
  { unfold g1. case_decide; [done|]. apply dom_add_node. }
  assert (H2 : ∀ x y, Graph.adj g2 x y ↔ Graph.adj g x y).
  { intros. unfold g2. case_decide; [apply H1|]. rewrite adj_add_node. apply H1. }
  assert (Hb2 : b ∈ dom g2).
  { unfold g2. case_decide; [done|]. apply dom_add_node. }
  assert (Ha2 : a ∈ dom g2).
  { unfold g2. case_decide; [done|]. unfold Graph.add_node. case_decide; set_solver. }
  rewrite adj_alter, adj_alter, H2 by (by rewrite ?dom_alter_L). tauto.
Qed.

Lemma adj_add_edges calls g u v :
  Graph.adj (Graph.add_edges calls g) u v ↔
  Graph.adj g u v ∨ (u, v) ∈ calls ∨ (v, u) ∈ calls.
Proof.
  revert g. induction calls as [|[a b] calls IH]; intros g; simpl.
  - set_solver.
  - rewrite IH, adj_add_edge. rewrite !elem_of_cons.
    split; [intros [[?|[[-> ->]|[-> ->]]]|[?|?]]|intros [?|[[[= -> ->]|?]|[[= -> ->]|?]]]]; tauto.
Qed.

Lemma adj_empty u v : ¬ Graph.adj ∅ u v.
Proof. intros (nu & Hl & _). by rewrite lookup_empty in Hl. Qed.

End graph_facts.

(** C8, as the code has it: after any sequence of [add_edge] calls on an
    empty graph the adjacency relation is symmetric, and a vertex is in its
    own [adjacent] set exactly when [add_edge] was called with both ids
    equal to it. *)
Theorem add_edge_adjacency (calls : list (nat * nat)) :
  let g := Graph.add_edges calls ∅ in
  Graph.symmetric g ∧ ∀ u, Graph.adj g u u ↔ (u, u) ∈ calls.
Proof.
  split.
  - intros u v. rewrite !adj_add_edges. pose proof (adj_empty u v). pose proof (adj_empty v u). tauto.
  - intros u. rewrite adj_add_edges. pose proof (adj_empty u u). tauto.
Qed.

(** C8 fails as stated: [add_edge(1, 1)] puts vertex 1 in its own
    [adjacent] set. *)
Lemma add_edge_self_loop :
  ¬ (Graph.symmetric (Graph.add_edges [(1, 1)] ∅) ∧ Graph.irreflexive (Graph.add_edges [(1, 1)] ∅)).
Proof.
  intros [_ H]. apply (H 1). apply adj_add_edges. right. left. set_solver.
Qed.

(** ** Partition.pop_first *)

(** C10: on an empty partition ([head] is [None]) [pop_first] returns
    [None], raises nothing, and leaves the store as it is, so that the
    partition is still empty. *)
Theorem pop_first_empty (self : nat) (s : Store) :
  partitions s !! self = Some None →
  Partition.pop_first self s = [Ok (None, s)] ∧
  Partition.is_empty self s = [Ok (true, s)].
Proof.
  intros H. unfold Partition.pop_first, Partition.is_empty, get_head, bind, get.
  simpl. rewrite H. simpl. done.
Qed.

(** A partition that is empty. *)
Lemma pop_first_empty_witness :
  let s := mkStore ∅ [] [] [] [None] in
  partitions s !! 0 = Some None ∧
  Partition.pop_first 0 s = [Ok (None, s)] ∧ Partition.is_empty 0 s = [Ok (true, s)].
Proof.
  split; [reflexivity|]. apply (pop_first_empty 0). reflexivity.
Defined.


(** ** build_spine *)

Module SpineFacts.
Import Spine.
Local Open Scope Z_scope.

Lemma wsat_ret {A} P (Q : A → Prop) x : Q x → wsat P Q (wret x).
Proof. intros H. split; [constructor|]. by intros ? [= <-]. Qed.

Lemma wsat_raise {A} P (Q : A → Prop) e : wsat P Q (wraise e).
Proof. split; [constructor|]. intros ? [=]. Qed.

Lemma wsat_bind {A B} P (Q : A → Prop) (R : B → Prop) m f :
  wsat P Q m → (∀ x, Q x → wsat P R (f x)) → wsat P R (wbind m f).
Proof.
  intros [Hm HQ] Hf. unfold wbind. destruct m as [lg [x|e]]; simpl in *.
  - destruct (Hf x (HQ x eq_refl)) as [H1 H2]. split; [by apply Forall_app|done].
  - split; [done|]. intros ? [=].
Qed.

Lemma wsat_tell P (Q : unit → Prop) e : P e → Q tt → wsat P Q (tell e).
Proof. intros. split; [by repeat constructor|]. by intros [] _. Qed.

Lemma wsat_weaken {A} P (Q Q' : A → Prop) m :
  wsat P Q m → (∀ x, Q x → Q' x) → wsat P Q' m.
Proof. intros [? H] HQ. split; [done|]. eauto. Qed.

Lemma getitem_elem_of {A} (l : list A) i x : getitem l i = Ok x → x ∈ l.
Proof.
  unfold getitem. intros H. repeat case_match; simplify_eq;
    by eapply list_elem_of_lookup_2.
Qed.

Lemma getitem_in_range {A} (l : list A) i :
  0 ≤ i < Z.of_nat (length l) → ∃ x, getitem l i = Ok x.
Proof.
  intros H. unfold getitem.
  destruct (Z.ltb_spec i 0); [lia|].
  destruct (Z.leb_spec 0 i); [|lia]. destruct (Z.ltb_spec i (Z.of_nat (length l))); [|lia].
  simpl. destruct (lookup_lt_is_Some_2 l (Z.to_nat i)) as [x ->]; [lia|]. eauto.
Qed.

Section spine_facts.
Variable sigma : PivotFactorizingPermutation.
Hypothesis Hrange : in_range sigma.

Lemma read_co_sat P i :
  P (ReadCo i) → wsat P (λ c, c ∈ co_components sigma) (Spine.read_co sigma i).
Proof.
  intros HP. unfold read_co. eapply wsat_bind; [by apply (wsat_tell _ (λ _, True))|].
  intros _ _. split; [constructor|]. simpl. apply getitem_elem_of.
Qed.

Lemma read_comp_sat P i :
  P (ReadComp i) → wsat P (λ c, c ∈ components sigma) (Spine.read_comp sigma i).
Proof.
  intros HP. unfold read_comp. eapply wsat_bind; [by apply (wsat_tell _ (λ _, True))|].
  intros _ _. split; [constructor|]. simpl. apply getitem_elem_of.
Qed.

Lemma co_mu_range c : c ∈ co_components sigma → 0 ≤ CoComponent.mu c ≤ b sigma.
Proof. destruct Hrange as [H _]. rewrite Forall_forall in H. apply H. Qed.

Lemma comp_range c :
  c ∈ components sigma →
  0 ≤ Component.mu c ≤ a sigma ∧ 0 ≤ Component.rho c ≤ b sigma.
Proof. destruct Hrange as [_ H]. rewrite Forall_forall in H. apply H. Qed.

Lemma wmap_sat {A B} P (Q : B → Prop) (f : A → W B) (xs : list A) :
  (∀ x, x ∈ xs → wsat P Q (f x)) → wsat P (Forall Q) (Spine.wmap f xs).
Proof.
  induction xs as [|x xs IH]; intros H; simpl.
  - by apply wsat_ret.
  - eapply wsat_bind; [apply H; left|]. intros y Hy.
    eapply wsat_bind; [apply IH; intros; apply H; by right|].
    intros ys Hys. apply wsat_ret. by constructor.
Qed.

Lemma elem_of_range lo hi i : i ∈ Py.range lo hi → lo ≤ i < hi.
Proof.
  unfold Py.range. intros (k & -> & Hk%elem_of_seq)%list_elem_of_fmap. lia.
Qed.

Lemma py_max_bound (vs : list Z) lo hi x :
  Forall (λ v, lo ≤ v ≤ hi) vs → Py.max vs = Ok x → lo ≤ x ≤ hi.
Proof.
  destruct vs as [|v vs]; [done|]. simpl. intros H [= <-].
  apply Forall_cons in H as [Hv H]. revert v Hv.
  induction H as [|w vs Hw H IH]; intros v Hv; simpl; [done|].
  apply IH. lia.
Qed.

Lemma max_over_sat {A} P (Q : A → Prop) (read : Z → W A) (f : A → Z) lo hi vlo vhi :
  (∀ i, lo ≤ i ≤ hi → wsat P Q (read i)) →
  (∀ c, Q c → vlo ≤ f c ≤ vhi) →
  wsat P (λ x, vlo ≤ x ≤ vhi) (Spine.max_over read f lo hi).
Proof.
  intros Hr Hf. unfold max_over.
  eapply wsat_bind.
  - apply (wmap_sat P (λ v, vlo ≤ v ≤ vhi)). intros i Hi%elem_of_range.
    eapply wsat_bind; [apply Hr; lia|]. intros c Hc. apply wsat_ret. by apply Hf.
  - intros vs Hvs. split; [constructor|]. simpl. intros x Hx. by eapply py_max_bound.
Qed.

(** Lower bounds *)
Lemma series_scan_low fuel st :
  1 ≤ l st →
  wsat ev_low (λ st', l st ≤ l st' ∧ r st' = r st) (Spine.series_scan sigma fuel st).
Proof.
  revert st. induction fuel as [|fuel IH]; intros st Hl; simpl; [apply wsat_raise|].
  case_match; [|by apply wsat_ret].
  eapply wsat_bind; [by apply read_co_sat|]. intros c _.
  case_match; [|by apply wsat_ret].
  eapply wsat_bind; [by apply read_co_sat|]. intros c' _.
  eapply wsat_weaken; [apply IH; simpl; lia|]. simpl. intros; lia.
Qed.

Lemma parallel_scan_low fuel st :
  1 ≤ r st →
  wsat ev_low (λ st', r st ≤ r st' ∧ l st' = l st) (Spine.parallel_scan sigma fuel st).
Proof.
  revert st. induction fuel as [|fuel IH]; intros st Hl; simpl; [apply wsat_raise|].
  case_match; [|by apply wsat_ret].
  eapply wsat_bind; [by apply read_comp_sat|]. intros c _.
  case_match; [|by apply wsat_ret].
  eapply wsat_bind; [by apply read_comp_sat|]. intros c' _.
  case_match; [|by apply wsat_ret].
  eapply wsat_bind; [by apply read_comp_sat|]. intros c'' _.
  eapply wsat_weaken; [apply IH; simpl; lia|]. simpl. intros; lia.
Qed.

Lemma max_over_low {A} (read : Z → W A) (f : A → Z) (Q : A → Prop) lo hi :
  (∀ i, 1 ≤ i → wsat ev_low Q (read i)) → 1 ≤ lo →
  wsat ev_low (λ _, True) (Spine.max_over read f lo hi).
Proof.
  intros Hr Hlo. unfold max_over. eapply wsat_bind.
  - apply (wmap_sat ev_low (λ _, True)). intros i Hi%elem_of_range.
    eapply wsat_bind; [apply Hr; lia|]. intros. by apply wsat_ret.
  - intros vs _. split; [constructor|done].
Qed.

Lemma prime_loop_low fuel l_ r_ t m :
  1 ≤ l_ ≤ t → 1 ≤ r_ ≤ m →
  wsat ev_low (λ '(t', m'), t ≤ t' ∧ m ≤ m') (Spine.prime_loop sigma fuel l_ r_ t m).
Proof.
  revert l_ r_ t m. induction fuel as [|fuel IH]; intros l_ r_ t m Hl Hr; simpl; [apply wsat_raise|].
  eapply wsat_bind; [apply (wsat_tell _ (λ _, True)); simpl; [lia|done]|]. intros _ _.
  eapply wsat_bind; [apply (max_over_low _ _ (λ c, c ∈ components sigma)); [|lia]; intros; by apply read_comp_sat|].
  intros x _.
  eapply wsat_bind; [apply (max_over_low _ _ (λ c, c ∈ co_components sigma)); [|lia]; intros; by apply read_co_sat|].
  intros y _.
  eapply wsat_bind; [apply (max_over_low _ _ (λ c, c ∈ components sigma)); [|lia]; intros; by apply read_comp_sat|].
  intros z _.
  case_match.
  - apply wsat_ret. lia.
  - eapply wsat_weaken; [apply IH; lia|]. intros [t' m']. lia.
Qed.

Lemma wmap_low {A B} (read : Z → W A) (f : A → B) (Q : A → Prop) lo hi :
  (∀ i, 1 ≤ i → wsat ev_low Q (read i)) → 1 ≤ lo →
  wsat ev_low (λ _, True) (Spine.wmap (λ i, wbind (read i) (λ c, wret (f c))) (Py.range lo hi)).
Proof.
  intros Hr Hlo. eapply wsat_weaken; [|done].
  apply (wmap_sat ev_low (λ _, True)). intros i Hi%elem_of_range.
  eapply wsat_bind; [apply Hr; lia|]. intros. by apply wsat_ret.
Qed.

Lemma prime_branch_low fuel st :
  0 ≤ l st → 0 ≤ r st →
  wsat ev_low (λ st', l st < l st' ∧ r st < r st') (Spine.prime_branch sigma fuel st).
Proof.
  intros Hl Hr. unfold prime_branch.
  eapply wsat_bind; [apply read_comp_sat; simpl; lia|]. intros c _.
  eapply wsat_bind; [apply read_co_sat; simpl; lia|]. intros c' _.
  eapply wsat_bind; [apply read_comp_sat; simpl; lia|]. intros c'' _.
  eapply wsat_bind; [apply prime_loop_low; lia|]. intros [t m] [Ht Hm].
  eapply wsat_bind; [apply (wmap_low _ _ (λ c, c ∈ co_components sigma)); [|lia]; intros; by apply read_co_sat|].
  intros cos _.
  eapply wsat_bind; [apply (wmap_low _ _ (λ c, c ∈ components sigma)); [|lia]; intros; by apply read_comp_sat|].
  intros cs _. apply wsat_ret. simpl. lia.
Qed.

Lemma spine_step_low fuel l0 r0 :
  0 ≤ l0 → 0 ≤ r0 →
  wsat ev_low (λ st', l0 ≤ l st' ∧ r0 ≤ r st') (Spine.spine_step sigma fuel l0 r0).
Proof.
  intros Hl Hr. unfold spine_step.
  eapply wsat_bind; [apply series_scan_low; simpl; lia|]. simpl. intros st [Hl' Hr'].
  eapply (wsat_bind _ (λ st', l0 ≤ l st' ∧ r0 ≤ r st')).
  - case_match.
    + eapply wsat_bind; [apply parallel_scan_low; simpl; lia|]. simpl.
      intros st' [? ?]. apply wsat_ret. simpl. lia.
    + apply wsat_ret. simpl. lia.
  - intros st' [? ?]. case_match; [|by apply wsat_ret].
    eapply wsat_weaken; [apply prime_branch_low; lia|]. simpl. intros; lia.
Qed.

Lemma spine_trace_low fuel l0 r0 :
  0 ≤ l0 → 0 ≤ r0 → Forall ev_low (Spine.spine_trace sigma fuel l0 r0).1.
Proof.
  revert l0 r0. induction fuel as [|fuel IH]; intros l0 r0 Hl Hr; [constructor|].
  cbn [spine_trace]. case_match; [|constructor].
  refine (proj1 (wsat_bind ev_low _ (λ _, True) _ _ (spine_step_low _ _ _ Hl Hr) _)).
  intros st [? ?]. split; [apply IH; lia|done].
Qed.

(** Upper bounds *)
Lemma series_scan_ok fuel st :
  1 ≤ l st →
  wsat (ev_ok sigma)
    (λ st', r st' = r st ∧ (length (module st) ≤ length (module st'))%nat ∧
            (length (module st') = length (module st) → l st' = l st))
    (series_scan sigma fuel st).
Proof.
  revert st. induction fuel as [|fuel IH]; intros st Hl; simpl; [apply wsat_raise|].
  destruct (Z.leb_spec (l st) (a sigma)); [|by apply wsat_ret].
  eapply wsat_bind; [apply read_co_sat; simpl; lia|]. intros c _.
  case_match; [|by apply wsat_ret].
  eapply wsat_bind; [apply read_co_sat; simpl; lia|]. intros c' _.
  eapply wsat_weaken; [apply IH; simpl; lia|]. simpl.
  intros st'. rewrite length_app. simpl. lia.
Qed.

Lemma parallel_scan_ok fuel st :
  1 ≤ r st →
  wsat (ev_ok sigma)
    (λ st', l st' = l st ∧ (length (module st) ≤ length (module st'))%nat ∧
            (length (module st') = length (module st) → r st' = r st))
    (parallel_scan sigma fuel st).
Proof.
  revert st. induction fuel as [|fuel IH]; intros st Hl; simpl; [apply wsat_raise|].
  destruct (Z.leb_spec (r st) (b sigma)); [|by apply wsat_ret].
  eapply wsat_bind; [apply read_comp_sat; simpl; lia|]. intros c _.
  case_match; [|by apply wsat_ret].
  eapply wsat_bind; [apply read_comp_sat; simpl; lia|]. intros c' _.
  case_match; [|by apply wsat_ret].
  eapply wsat_bind; [apply read_comp_sat; simpl; lia|]. intros c'' _.
  eapply wsat_weaken; [apply IH; simpl; lia|]. simpl.
  intros st'. rewrite length_app. simpl. lia.
Qed.

Lemma prime_loop_ok fuel l_ r_ t m :
  1 ≤ l_ ≤ t → t ≤ a sigma → 1 ≤ r_ ≤ m → m ≤ b sigma →
  wsat (ev_ok sigma) (λ '(t', m'), t ≤ t' ≤ a sigma ∧ m ≤ m' ≤ b sigma)
    (prime_loop sigma fuel l_ r_ t m).
Proof.
  revert l_ r_ t m. induction fuel as [|fuel IH]; intros l_ r_ t m Hl Ht Hr Hm; simpl;
    [apply wsat_raise|].
  eapply wsat_bind; [apply (wsat_tell _ (λ _, True)); simpl; [lia|done]|]. intros _ _.
  eapply wsat_bind.
  { apply (max_over_sat _ (λ c, c ∈ components sigma) _ _ _ _ 0 (a sigma)).
    - intros i Hi. apply read_comp_sat. simpl. lia.
    - intros c Hc. apply (comp_range c Hc). }
  intros x Hx. simpl in Hx.
  eapply wsat_bind.
  { apply (max_over_sat _ (λ c, c ∈ co_components sigma) _ _ _ _ 0 (b sigma)).
    - intros i Hi. apply read_co_sat. simpl. lia.
    - intros c Hc. apply (co_mu_range c Hc). }
  intros y Hy. simpl in Hy.
  eapply wsat_bind.
  { apply (max_over_sat _ (λ c, c ∈ components sigma) _ _ _ _ 0 (b sigma)).
    - intros i Hi. apply read_comp_sat. simpl. lia.
    - intros c Hc. apply (comp_range c Hc). }
  intros z Hz. simpl in Hz.
  case_match.
  - apply wsat_ret. lia.
  - eapply wsat_weaken; [apply IH; lia|]. intros [t' m']. lia.
Qed.

Lemma wmap_ok {A B} (read : Z → W A) (f : A → B) (Q : A → Prop) lo hi :
  (∀ i, lo ≤ i < hi → wsat (ev_ok sigma) Q (read i)) →
  wsat (ev_ok sigma) (λ _, True)
    (wmap (λ i, wbind (read i) (λ c, wret (f c))) (Py.range lo hi)).
Proof.
  intros Hr. eapply wsat_weaken; [|done].
  apply (wmap_sat (ev_ok sigma) (λ _, True)). intros i Hi%elem_of_range.
  eapply wsat_bind; [apply Hr; lia|]. intros. by apply wsat_ret.
Qed.

Lemma prime_branch_ok fuel st :
  0 ≤ l st < a sigma → 0 ≤ r st < b sigma →
  wsat (ev_ok sigma) (λ st', l st < l st' ≤ a sigma ∧ r st < r st' ≤ b sigma)
    (prime_branch sigma fuel st).
Proof.
  intros Hl Hr. unfold prime_branch.
  eapply wsat_bind; [apply read_comp_sat; simpl; lia|]. intros c Hc.
  eapply wsat_bind; [apply read_co_sat; simpl; lia|]. intros c' Hc'.
  eapply wsat_bind; [apply read_comp_sat; simpl; lia|]. intros c'' Hc''.
  pose proof (comp_range c Hc). pose proof (comp_range c'' Hc'').
  pose proof (co_mu_range c' Hc').
  eapply wsat_bind; [apply prime_loop_ok; lia|]. intros [t m] [Ht Hm].
  eapply wsat_bind.
  { apply (wmap_ok _ _ (λ c, c ∈ co_components sigma)).
    intros i Hi. apply read_co_sat. simpl. lia. }
  intros cos _.
  eapply wsat_bind.
  { apply (wmap_ok _ _ (λ c, c ∈ components sigma)).
    intros i Hi. apply read_comp_sat. simpl. lia. }
  intros cs _. apply wsat_ret. simpl. lia.
Qed.

Lemma spine_step_ok fuel l0 r0 :
  0 ≤ l0 < a sigma → 0 ≤ r0 < b sigma →
  wsat (ev_ok sigma) (λ _, True) (spine_step sigma fuel l0 r0).
Proof.
  intros Hl Hr. unfold spine_step.
  eapply wsat_bind; [apply series_scan_ok; simpl; lia|]. simpl. intros st (Hrst & Hlen & Hst).
  eapply (wsat_bind _ (λ st', length (module st') = 0%nat → l st' = l0 ∧ r st' = r0)).
  - case_bool_decide as Hm.
    + eapply wsat_bind; [apply parallel_scan_ok; simpl; lia|]. simpl.
      intros st' (? & ? & Hst'). apply wsat_ret. simpl. intros E. lia.
    + apply wsat_ret. done.
  - intros st' Hst'. case_bool_decide as Hm; [|by apply wsat_ret].
    destruct (Hst' Hm) as [El Er].
    eapply wsat_weaken; [apply prime_branch_ok; lia|]. done.
Qed.

End spine_facts.


(** C3, as the code has it: for every [sigma] whose [mu] and [rho] lie in
    the stated ranges, no subscript read by [build_spine] wraps around
    ([i >= 1], and [l_ >= 1], [r_ >= 1] at every round of the PRIME loop),
    in a whole run and in any round started from [l0, r0 >= 0]; a round
    started with [l0 < a] and [r0 < b] reads in range only
    ([1 <= i <= a], respectively [1 <= i <= b]). *)
Theorem build_spine_subscripts (sigma : PivotFactorizingPermutation) (fuel : nat) (l0 r0 : Z) :
  in_range sigma → 0 ≤ l0 → 0 ≤ r0 →
  Forall ev_low (spine_trace sigma fuel 0 0).1 ∧
  Forall ev_low (spine_step sigma fuel l0 r0).1 ∧
  (l0 < a sigma → r0 < b sigma → Forall (ev_ok sigma) (spine_step sigma fuel l0 r0).1).
Proof.
  intros Hrange Hl Hr. split; [|split].
  - by apply spine_trace_low.
  - by apply spine_step_low.
  - intros Hl' Hr'. by apply spine_step_ok.
Qed.

(** The permutation [sigma_ok], from [l0 = r0 = 0]. *)
Lemma build_spine_subscripts_witness :
  in_range sigma_ok ∧ Forall (ev_ok sigma_ok) (spine_step sigma_ok 5 0 0).1.
Proof.
  assert (Hr : in_range sigma_ok).
  { split; repeat constructor; vm_compute; congruence. }
  split; [exact Hr|].
  apply (build_spine_subscripts sigma_ok 5 0 0 Hr); (lia || (vm_compute; reflexivity)).
Defined.

(** C3 fails as stated: with no co-component and one component with
    [mu = 0] and [rho = 1], all in range, the PRIME branch is entered with
    [l = a = 0] and reads [sigma.co_components[0]], which raises
    [IndexError]. *)
Lemma build_spine_subscript_out_of_range :
  in_range sigma_bad ∧
  ¬ Forall (ev_ok sigma_bad) (spine_trace sigma_bad 5 0 0).1 ∧
  spine_trace sigma_bad 5 0 0 = ([ReadComp 1; ReadComp 1; ReadComp 1; ReadCo 1], Raise IndexError).
Proof.
  split; [|split].
  - split; repeat constructor; vm_compute; congruence.
  - intros H. rewrite Forall_forall in H.
    specialize (H (ReadCo 1)). simpl in H.
    assert (E : ReadCo 1 ∈ (spine_trace sigma_bad 5 0 0).1) by (vm_compute; set_solver).
    apply H in E. vm_compute in E. destruct E as [_ E]. by apply E.
  - vm_compute. reflexivity.
Qed.


End SpineFacts.

(** ** Hoare triples, and what every step of [md_tree] preserves *)

Create HintDb stable.
#[global] Hint Constructors node_update : stable.

Lemma hoare_ret {A} (P : Store → Prop) (Q : A → Store → Prop) x :
  (∀ s, P s → Q x s) → hoare P (ret x) Q.
Proof. intros H s y s' HP [= <- <-]%list_elem_of_singleton. auto. Qed.

Lemma hoare_raise {A} P (Q : A → Store → Prop) e : hoare P (raise e) Q.
Proof. intros s y s' _ [=]%list_elem_of_singleton. Qed.

Lemma hoare_bind {A B} P (R : A → Store → Prop) (Q : B → Store → Prop)
    (m : M A) (f : A → M B) :
  hoare P m R → (∀ x, hoare (R x) (f x) Q) → hoare P (bind m f) Q.
Proof.
  intros Hm Hf s y s' HP Hin. unfold bind in Hin.
  apply list_elem_of_In, in_flat_map in Hin as ([[x s1]|e] & Hr & Hy).
  - apply list_elem_of_In in Hr, Hy. eapply Hf; [|done]. eapply Hm; done.
  - destruct Hy as [[=]|[]].
Qed.

Lemma hoare_conseq {A} (P P' : Store → Prop) (Q Q' : A → Store → Prop) m :
  hoare P' m Q' → (∀ s, P s → P' s) → (∀ x s, Q' x s → Q x s) → hoare P m Q.
Proof. intros H HP HQ s x s' Hs Hin. eauto. Qed.

Lemma hoare_get P : hoare P get (λ s0 s, s0 = s ∧ P s).
Proof. intros s y s' HP [= <- <-]%list_elem_of_singleton. auto. Qed.

Lemma hoare_modify P (Q : unit → Store → Prop) f :
  (∀ s, P s → Q tt (f s)) → hoare P (modify f) Q.
Proof. intros H s [] s' HP [= ->]%list_elem_of_singleton. auto. Qed.

Lemma hoare_choose {A} P (xs : list A) : hoare P (choose xs) (λ _, P).
Proof.
  intros s y s' HP (x & [= <- <-] & _)%list_elem_of_fmap. done.
Qed.


(** A property of the store that no assignment of the code breaks is
    preserved by every function of the embedding. *)
Section stable.

Variable I : Store → Prop.
Hypothesis I_trees : ∀ s v, I s → I (set_trees v s).
Hypothesis I_lists : ∀ s v, I s → I (set_lists v s).
Hypothesis I_classes : ∀ s v, I s → I (set_classes v s).
Hypothesis I_partitions : ∀ s v, I s → I (set_partitions v s).
Hypothesis I_vertices : ∀ s v f, node_update f → I s →
  I (set_vertices (alter f v (vertices s)) s).

Lemma stable_ret {A} (x : A) : stable I (ret x).
Proof. by apply hoare_ret. Qed.

Lemma stable_raise {A} e : stable I (@raise A e).
Proof. apply hoare_raise. Qed.

Lemma stable_bind {A B} (m : M A) (f : A → M B) :
  stable I m → (∀ x, stable I (f x)) → stable I (bind m f).
Proof. intros. by eapply hoare_bind. Qed.

Lemma stable_get : stable I get.
Proof. eapply hoare_conseq; [apply hoare_get|done|]. by intros ?? [_ ?]. Qed.

Lemma stable_choose {A} (xs : list A) : stable I (choose xs).
Proof. apply hoare_choose. Qed.

Lemma stable_lift {A} (r : Res A) : stable I (lift r).
Proof. destruct r; [apply stable_ret|apply stable_raise]. Qed.

Lemma stable_not_none {A} (o : option A) : stable I (not_none o).
Proof. destruct o; [apply stable_ret|apply stable_raise]. Qed.

Lemma stable_for_each {A} (l : list A) (body : A → M unit) :
  (∀ x, stable I (body x)) → stable I (for_each l body).
Proof.
  intros H. induction l as [|x l IH]; simpl; [apply stable_ret|].
  apply stable_bind; auto.
Qed.

Lemma stable_fold_each {A B} (l : list A) (body : B → A → M B) (b : B) :
  (∀ b x, stable I (body b x)) → stable I (fold_each l body b).
Proof.
  intros H. revert b. induction l as [|x l IH]; intros b; simpl; [apply stable_ret|].
  apply stable_bind; auto.
Qed.

Lemma stable_loop {A B} (fuel : nat) (body : A → M (A + B)) (a : A) :
  (∀ a, stable I (body a)) → stable I (loop fuel body a).
Proof.
  intros H. revert a. induction fuel as [|fuel IH]; intros a; simpl; [apply stable_raise|].
  apply stable_bind; [auto|]. intros [a'|b]; [apply IH|apply stable_ret].
Qed.

Ltac stable_step :=
  match goal with
  | |- ∀ _, _ => intro
  | |- stable I (bind _ _) => apply stable_bind
  | |- stable I (ret _) => apply stable_ret
  | |- stable I (raise _) => apply stable_raise
  | |- stable I get => apply stable_get
  | |- stable I (choose _) => apply stable_choose
  | |- stable I (lift _) => apply stable_lift
  | |- stable I (not_none _) => apply stable_not_none
  | |- stable I (for_each _ _) => apply stable_for_each
  | |- stable I (fold_each _ _ _) => apply stable_fold_each
  | |- stable I (loop _ _ _) => apply stable_loop
  | |- stable I (modify _) =>
      apply hoare_modify; intros;
      first [apply I_trees | apply I_lists | apply I_classes | apply I_partitions
            | apply I_vertices]; try assumption
  | |- stable I (match ?x with _ => _ end) => destruct x
  | |- stable I ((match ?x with _ => _ end) _) => destruct x
  | |- stable I _ => solve [eauto with stable]
  | |- node_update _ => constructor
  | |- stable I _ => progress cbv beta
  end.
Ltac stable_tac := repeat stable_step.

Lemma stable_get_vertex v : stable I (get_vertex v).
Proof. unfold get_vertex. stable_tac. Qed.
#[local] Hint Resolve stable_get_vertex : stable.
Lemma stable_vertex_upd v f : node_update f → stable I (vertex_upd v f).
Proof.
  intros Hf. unfold vertex_upd. stable_tac.
Qed.
#[local] Hint Resolve stable_vertex_upd : stable.
Lemma stable_get_tree u : stable I (get_tree u).
Proof. unfold get_tree. stable_tac. Qed.
#[local] Hint Resolve stable_get_tree : stable.
Lemma stable_tree_upd u f : stable I (tree_upd u f).
Proof. unfold tree_upd. stable_tac. Qed.
#[local] Hint Resolve stable_tree_upd : stable.
Lemma stable_get_list l : stable I (get_list l).
Proof. unfold get_list. stable_tac. Qed.
#[local] Hint Resolve stable_get_list : stable.
Lemma stable_list_set l v : stable I (list_set l v).
Proof. unfold list_set. stable_tac. Qed.
#[local] Hint Resolve stable_list_set : stable.
Lemma stable_list_new v : stable I (list_new v).
Proof. unfold list_new. stable_tac. Qed.
#[local] Hint Resolve stable_list_new : stable.
Lemma stable_get_class c : stable I (get_class c).
Proof. unfold get_class. stable_tac. Qed.
#[local] Hint Resolve stable_get_class : stable.
Lemma stable_class_upd c f : stable I (class_upd c f).
Proof. unfold class_upd. stable_tac. Qed.
#[local] Hint Resolve stable_class_upd : stable.
Lemma stable_new_PartitionClass nodes : stable I (new_PartitionClass nodes).
Proof. unfold new_PartitionClass. stable_tac. Qed.
#[local] Hint Resolve stable_new_PartitionClass : stable.
Lemma stable_get_head p : stable I (get_head p).
Proof. unfold get_head. stable_tac. Qed.
#[local] Hint Resolve stable_get_head : stable.
Lemma stable_set_head p h : stable I (set_head p h).
Proof. unfold set_head. stable_tac. Qed.
#[local] Hint Resolve stable_set_head : stable.
Lemma stable_new_Partition : stable I new_Partition.
Proof. unfold new_Partition. stable_tac. Qed.
#[local] Hint Resolve stable_new_Partition : stable.
Lemma stable_new_Tree ty pl : stable I (new_Tree ty pl).
Proof. unfold new_Tree. stable_tac. Qed.
#[local] Hint Resolve stable_new_Tree : stable.

Lemma stable_partition_prepend self p_class : stable I (Partition.prepend self p_class).
Proof. unfold Partition.prepend. stable_tac. Qed.
#[local] Hint Resolve stable_partition_prepend : stable.
Lemma stable_partition_get_first self : stable I (Partition.get_first self).
Proof. unfold Partition.get_first. stable_tac. Qed.
#[local] Hint Resolve stable_partition_get_first : stable.
Lemma stable_partition_pop_first self : stable I (Partition.pop_first self).
Proof. unfold Partition.pop_first. stable_tac. Qed.
#[local] Hint Resolve stable_partition_pop_first : stable.
Lemma stable_partition_replace self o pa pb : stable I (Partition.replace self o pa pb).
Proof. unfold Partition.replace. stable_tac. Qed.
#[local] Hint Resolve stable_partition_replace : stable.
Lemma stable_partition_for_classes fuel self body : (∀ c, stable I (body c)) → stable I (Partition.for_classes fuel self body).
Proof. intros ?. unfold Partition.for_classes. stable_tac. Qed.
#[local] Hint Extern 0 (stable I (Partition.for_classes _ _ _)) =>
  apply stable_partition_for_classes; stable_tac : stable.
Lemma stable_partition_flatten fuel self : stable I (Partition.flatten fuel self).
Proof. unfold Partition.flatten. stable_tac. Qed.
#[local] Hint Resolve stable_partition_flatten : stable.
Lemma stable_partition_is_empty self : stable I (Partition.is_empty self).
Proof. unfold Partition.is_empty. stable_tac. Qed.
#[local] Hint Resolve stable_partition_is_empty : stable.
Lemma stable_gen_next fuel stk : stable I (gen_next fuel stk).
Proof. unfold gen_next. stable_tac. Qed.
#[local] Hint Resolve stable_gen_next : stable.
Lemma stable_fold_tree {B} fuel self (body : B → nat → M B) b : (∀ b n, stable I (body b n)) → stable I (fold_tree fuel self body b).
Proof. intros ?. unfold fold_tree. stable_tac. Qed.
#[local] Hint Extern 0 (stable I (fold_tree _ _ _ _)) =>
  apply stable_fold_tree; stable_tac : stable.
Lemma stable_for_tree fuel self body : (∀ n, stable I (body n)) → stable I (for_tree fuel self body).
Proof. intros ?. unfold for_tree. stable_tac. Qed.
#[local] Hint Extern 0 (stable I (for_tree _ _ _)) =>
  apply stable_for_tree; stable_tac : stable.
Lemma stable_is_leaf u : stable I (is_leaf u).
Proof. unfold is_leaf. stable_tac. Qed.
#[local] Hint Resolve stable_is_leaf : stable.
Lemma stable_fold_leaves {B} fuel self (body : B → nat → M B) b : (∀ b n, stable I (body b n)) → stable I (fold_leaves fuel self body b).
Proof. intros ?. unfold fold_leaves. stable_tac. Qed.
#[local] Hint Extern 0 (stable I (fold_leaves _ _ _ _)) =>
  apply stable_fold_leaves; stable_tac : stable.
Lemma stable_for_leaves fuel self body : (∀ n, stable I (body n)) → stable I (for_leaves fuel self body).
Proof. intros ?. unfold for_leaves. stable_tac. Qed.
#[local] Hint Extern 0 (stable I (for_leaves _ _ _)) =>
  apply stable_for_leaves; stable_tac : stable.
Lemma stable_leaves fuel self : stable I (leaves fuel self).
Proof. unfold leaves. stable_tac. Qed.
#[local] Hint Resolve stable_leaves : stable.
Lemma stable_first_leaf fuel self : stable I (first_leaf fuel self).
Proof. unfold first_leaf. stable_tac. Qed.
#[local] Hint Resolve stable_first_leaf : stable.
Lemma stable_insert self child : stable I (insert self child).
Proof. unfold insert. stable_tac. Qed.
#[local] Hint Resolve stable_insert : stable.
Lemma stable_children_of self : stable I (children_of self).
Proof. unfold children_of. stable_tac. Qed.
#[local] Hint Resolve stable_children_of : stable.
Lemma stable_remove_child self child : stable I (remove_child self child).
Proof. unfold remove_child. stable_tac. Qed.
#[local] Hint Resolve stable_remove_child : stable.
Lemma stable_assign_children self v : stable I (assign_children self v).
Proof. unfold assign_children. stable_tac. Qed.
#[local] Hint Resolve stable_assign_children : stable.
Lemma stable_get_root fuel self : stable I (get_root fuel self).
Proof. unfold get_root. stable_tac. Qed.
#[local] Hint Resolve stable_get_root : stable.
Lemma stable_is_degenerate self : stable I (is_degenerate self).
Proof. unfold is_degenerate. stable_tac. Qed.
#[local] Hint Resolve stable_is_degenerate : stable.
Lemma stable_group_children self group_fn : (∀ c, stable I (group_fn c)) → stable I (group_children self group_fn).
Proof. intros ?. unfold group_children. stable_tac. Qed.
#[local] Hint Extern 0 (stable I (group_children _ _)) =>
  apply stable_group_children; stable_tac : stable.
Lemma stable_replace_children self children : stable I (replace_children self children).
Proof. unfold replace_children. stable_tac. Qed.
#[local] Hint Resolve stable_replace_children : stable.
Lemma stable_set_leaf_connectivity fuel u k c : stable I (set_leaf_connectivity fuel u k c).
Proof. unfold set_leaf_connectivity. stable_tac. Qed.
#[local] Hint Resolve stable_set_leaf_connectivity : stable.
Lemma stable_label_by_component fuel self c n : stable I (label_by_component fuel self c n).
Proof. unfold label_by_component. stable_tac. Qed.
#[local] Hint Resolve stable_label_by_component : stable.
Lemma stable_is_marked u : stable I (is_marked u).
Proof. unfold is_marked. stable_tac. Qed.
#[local] Hint Resolve stable_is_marked : stable.
Lemma stable_has_label u l : stable I (has_label u l).
Proof. unfold has_label. stable_tac. Qed.
#[local] Hint Resolve stable_has_label : stable.
Lemma stable_dead_or_zombie u : stable I (dead_or_zombie u).
Proof. unfold dead_or_zombie. stable_tac. Qed.
#[local] Hint Resolve stable_dead_or_zombie : stable.
Lemma stable_leaf_vertex y : stable I (leaf_vertex y).
Proof. unfold leaf_vertex. stable_tac. Qed.
#[local] Hint Resolve stable_leaf_vertex : stable.
Lemma stable_leaf_vertices fuel ts : stable I (leaf_vertices fuel ts).
Proof. unfold leaf_vertices. stable_tac. Qed.
#[local] Hint Resolve stable_leaf_vertices : stable.
Lemma stable_incr_mark_count u : stable I (incr_mark_count u).
Proof. unfold incr_mark_count. stable_tac. Qed.
#[local] Hint Resolve stable_incr_mark_count : stable.
Lemma stable_mark_leaves active : stable I (mark_leaves active).
Proof. unfold mark_leaves. stable_tac. Qed.
#[local] Hint Resolve stable_mark_leaves : stable.
Lemma stable_any_marked cs : stable I (any_marked cs).
Proof. unfold any_marked. stable_tac. Qed.
#[local] Hint Resolve stable_any_marked : stable.
Lemma stable_mark_ancestors fuel t mk : stable I (mark_ancestors fuel t mk).
Proof. unfold mark_ancestors. stable_tac. Qed.
#[local] Hint Resolve stable_mark_ancestors : stable.
Lemma stable_split_node u : stable I (split_node u).
Proof. unfold split_node. stable_tac. Qed.
#[local] Hint Resolve stable_split_node : stable.
Lemma stable_refine_leaf fuel all_leaves y : stable I (refine_leaf fuel all_leaves y).
Proof. unfold refine_leaf. stable_tac. Qed.
#[local] Hint Resolve stable_refine_leaf : stable.
Lemma stable_tree_refinement fuel ts : stable I (tree_refinement fuel ts).
Proof. unfold tree_refinement. stable_tac. Qed.
#[local] Hint Resolve stable_tree_refinement : stable.
Lemma stable_zombify_ancestors fuel u : stable I (zombify_ancestors fuel u).
Proof. unfold zombify_ancestors. stable_tac. Qed.
#[local] Hint Resolve stable_zombify_ancestors : stable.
Lemma stable_reorder_zombie i u : stable I (reorder_zombie i u).
Proof. unfold reorder_zombie. stable_tac. Qed.
#[local] Hint Resolve stable_reorder_zombie : stable.
Lemma stable_factorize fuel ts : stable I (factorize fuel ts).
Proof. unfold factorize. stable_tac. Qed.
#[local] Hint Resolve stable_factorize : stable.
Lemma stable_group_by_connectivity ls : stable I (group_by_connectivity ls).
Proof. unfold group_by_connectivity. stable_tac. Qed.
#[local] Hint Resolve stable_group_by_connectivity : stable.
Lemma stable_is_adjacent u v : stable I (is_adjacent u v).
Proof. unfold is_adjacent. stable_tac. Qed.
#[local] Hint Resolve stable_is_adjacent : stable.
Lemma stable_is_adjacent_to_any n c : stable I (is_adjacent_to_any n c).
Proof. unfold is_adjacent_to_any. stable_tac. Qed.
#[local] Hint Resolve stable_is_adjacent_to_any : stable.
Lemma stable_is_adjacent_to_all n c : stable I (is_adjacent_to_all n c).
Proof. unfold is_adjacent_to_all. stable_tac. Qed.
#[local] Hint Resolve stable_is_adjacent_to_all : stable.
Lemma stable_mu_of_co_leaf y cs j : stable I (mu_of_co_leaf y cs j).
Proof. induction j as [|j IH]; simpl; stable_tac. Qed.
#[local] Hint Resolve stable_mu_of_co_leaf : stable.
Lemma stable_mu_of_leaf y cs j : stable I (mu_of_leaf y cs j).
Proof. induction j as [|j IH]; simpl; stable_tac. Qed.
#[local] Hint Resolve stable_mu_of_leaf : stable.
Lemma stable_rho_of_leaf y cs i j : stable I (rho_of_leaf y cs i j).
Proof. induction j as [|j IH]; simpl; stable_tac. Qed.
#[local] Hint Resolve stable_rho_of_leaf : stable.
Lemma stable_max_attr attr c : stable I (max_attr attr c).
Proof. unfold max_attr. stable_tac. Qed.
#[local] Hint Resolve stable_max_attr : stable.
Lemma stable_pivot_factorizing_permutation fuel ts : stable I (pivot_factorizing_permutation fuel ts).
Proof. unfold pivot_factorizing_permutation. stable_tac. Qed.
#[local] Hint Resolve stable_pivot_factorizing_permutation : stable.
Lemma stable_build_spine fuel sigma : stable I (build_spine fuel sigma).
Proof. unfold build_spine. stable_tac. Qed.
#[local] Hint Resolve stable_build_spine : stable.
Lemma stable_replace_component fuel replaced leaf : stable I (replace_component fuel replaced leaf).
Proof. unfold replace_component. stable_tac. Qed.
#[local] Hint Resolve stable_replace_component : stable.
Lemma stable_merge_into_parent t : stable I (merge_into_parent t).
Proof. unfold merge_into_parent. stable_tac. Qed.
#[local] Hint Resolve stable_merge_into_parent : stable.
Lemma stable_conquer_md_tree fuel ts : stable I (conquer_md_tree fuel ts).
Proof. unfold conquer_md_tree. stable_tac. Qed.
#[local] Hint Resolve stable_conquer_md_tree : stable.

Lemma stable_next_iter pick s : stable I (next_iter pick s).
Proof. unfold next_iter. stable_tac. Qed.
#[local] Hint Resolve stable_next_iter : stable.
Lemma stable_refine_class p x c : stable I (refine_class p x c).
Proof. unfold refine_class. stable_tac. Qed.
#[local] Hint Resolve stable_refine_class : stable.

Lemma stable_divide pick fuel :
  (∀ s p, stable I (divide_md_tree pick fuel s p)) ∧
  (∀ s p ts, stable I (divide_slices pick fuel s p ts)).
Proof.
  induction fuel as [|fuel [IH1 IH2]]; (split; [intros s p|intros s p ts]);
    cbn [divide_md_tree divide_slices]; stable_tac.
Qed.

Lemma stable_divide_md_tree pick fuel s p : stable I (divide_md_tree pick fuel s p).
Proof. apply stable_divide. Qed.
Lemma stable_divide_slices pick fuel s p ts : stable I (divide_slices pick fuel s p ts).
Proof. apply stable_divide. Qed.
#[local] Hint Resolve stable_divide_md_tree stable_divide_slices : stable.

Lemma stable_md_tree pick fuel : stable I (md_tree pick fuel).
Proof. unfold md_tree. stable_tac. Qed.

End stable.

Lemma has_container_update v w f s :
  node_update f → has_container v s →
  has_container v (set_vertices (alter f w (vertices s)) s).
Proof.
  intros Hf (n & c & Hn & Hc). unfold has_container. simpl.
  destruct (decide (w = v)) as [->|Hne].
  - rewrite lookup_alter_eq, Hn. simpl.
    destruct Hf; simpl; eauto.
  - rewrite lookup_alter_ne by done. eauto.
Qed.

Lemma hoare_true {A} (P : Store → Prop) (m : M A) : hoare P m (λ _ _, True).
Proof. by intros s x s' _ _. Qed.

Lemma vertex_upd_container v c :
  hoare (λ _, True) (vertex_upd v (Node.set_container (Some c))) (λ _, has_container v).
Proof.
  intros s [] s' _ Hin. unfold vertex_upd, get_vertex, bind, get, modify in Hin.
  simpl in Hin. destruct (vertices s !! v) as [n|] eqn:E; simpl in Hin.
  - apply list_elem_of_singleton in Hin as [= ->].
    exists (Node.set_container (Some c) n), c. simpl.
    by rewrite lookup_alter_eq, E.
  - by apply list_elem_of_singleton in Hin.
Qed.

(** Whatever runs after the container of [v] is set leaves it set. *)
Lemma has_container_stable v {A} (m : M A) :
  (∀ I : Store → Prop,
     (∀ s x, I s → I (set_trees x s)) → (∀ s x, I s → I (set_lists x s)) →
     (∀ s x, I s → I (set_classes x s)) → (∀ s x, I s → I (set_partitions x s)) →
     (∀ s w f, node_update f → I s → I (set_vertices (alter f w (vertices s)) s)) →
     stable I m) →
  hoare (has_container v) m (λ _, has_container v).
Proof.
  intros H. apply H; try done. intros. by apply has_container_update.
Qed.

Lemma seq_container v {A B} (m : M A) (k : M B) :
  hoare (λ _, True) m (λ _, has_container v) →
  hoare (has_container v) k (λ _, has_container v) →
  hoare (λ _, True) (m ;;; k) (λ _ s, ∃ w, has_container w s).
Proof.
  intros Hm Hk. eapply hoare_bind; [exact Hm|]. intros y. cbv beta.
  eapply hoare_conseq; [exact Hk|done|]. intros ? s ?. by exists v.
Qed.

Lemma divide_md_tree_sets_container pick fuel s p :
  hoare (λ _, True) (divide_md_tree pick fuel s p) (λ _ s', ∃ v, has_container v s').
Proof.
  destruct fuel as [|fuel]; cbn [divide_md_tree]; [apply hoare_raise|].
  eapply hoare_bind; [apply hoare_true|]. intros x.
  eapply hoare_bind; [apply hoare_true|]. intros s_.
  eapply hoare_bind; [apply hoare_true|]. intros nx.
  eapply hoare_bind; [apply hoare_true|]. intros ?; cbv beta.
  eapply hoare_bind; [apply hoare_true|]. intros nx'.
  eapply hoare_bind; [apply hoare_true|]. intros ?; cbv beta.
  case_match.
  - eapply hoare_bind; [apply hoare_true|]. intros tree_x.
    apply (seq_container x); [apply vertex_upd_container|].
    apply has_container_stable. intros. by apply stable_ret.
  - eapply hoare_bind; [apply hoare_true|]. intros nx''.
    eapply hoare_bind; [apply hoare_true|]. intros ?; cbv beta.
    eapply hoare_bind; [apply hoare_true|]. intros ?; cbv beta.
    eapply hoare_bind; [apply hoare_true|]. intros tree_x.
    apply (seq_container x); [apply vertex_upd_container|].
    apply has_container_stable. intros I H1 H2 H3 H4 H5.
    apply stable_bind; [by apply stable_divide_slices|]. intros [ts p'].
    apply stable_bind; [by apply stable_conquer_md_tree|]. intros t.
    by apply stable_ret.
Qed.

(** C6, as the code has it: [md_tree] does not reset the scratch fields of
    the vertices.  [container] is only ever assigned a tree leaf, so
    whenever [md_tree] returns, whatever the graph and the pivots, the
    container of some vertex (the first pivot) is still set: the scratch
    fields do not have their initial values. *)
Theorem md_tree_container_not_reset (pick : list nat → list nat) (fuel : nat)
    (g : Graph.t) (t : nat) (s' : Store) :
  Ok (t, s') ∈ md_tree pick fuel (init_store g) →
  (∃ v n c, vertices s' !! v = Some n ∧ Node.container n = Some c) ∧ ¬ scratch_reset s'.
Proof.
  intros Hin.
  assert (H : ∃ v, has_container v s').
  { unfold md_tree in Hin.
    refine (hoare_bind (λ _, True) (λ _ _, True) (λ _ s', ∃ v, has_container v s')
              _ _ (hoare_true _ _) _ _ _ _ I Hin).
    intros s0. eapply hoare_bind; [apply hoare_true|]. intros p.
    eapply hoare_bind; [apply divide_md_tree_sets_container|].
    intros [t' p']. apply hoare_ret. done. }
  destruct H as (v & n & c & Hn & Hc). split; [eauto|].
  intros Hr. destruct (Hr v n Hn) as (_ & _ & Hc'). congruence.
Qed.

(** The graph with the single edge 1-2. *)
Lemma md_tree_container_not_reset_witness :
  ∃ t s', Ok (t, s') ∈ run_md_tree_least 10 K2 ∧ ¬ scratch_reset s'.
Proof.
  eexists _, _. split.
  - vm_compute. left.
  - eapply (md_tree_container_not_reset least_pivot 10 K2). vm_compute. left.
Defined.


(** C6 fails as stated: on the graph with the single edge 1-2, with pivot
    1, [md_tree] returns with [active_alpha = {1}] and a container for
    vertex 2, and with [mu = 0] on the leaf of vertex 2. *)
Lemma md_tree_scratch_not_reset :
  ∃ t s' n x, run_md_tree_least 10 K2 = [Ok (t, s')] ∧
    vertices s' !! 2 = Some n ∧ Node.active_alpha n = {[1]} ∧
    Node.container n = Some 1 ∧
    trees s' !! 1 = Some x ∧ Tree.node x = PVertex 2 ∧ Tree.mu x = Some 0 ∧
    ¬ scratch_reset s'.
Proof.
  eexists _, _, _, _. split; [vm_compute; reflexivity|].
  split; [vm_compute; reflexivity|].
  split; [vm_compute; reflexivity|].
  split; [reflexivity|].
  split; [vm_compute; reflexivity|].
  split; [reflexivity|].
  split; [reflexivity|].
  intros H. specialize (H 2 _ eq_refl) as (_ & _ & H). discriminate H.
Qed.

(** ** md_tree on the empty graph *)

(** C7, as the code has it: on a graph with no vertices [md_tree] raises
    [StopIteration], the exception of [next(iter(s))] on an empty set,
    whatever the pivot policy; it returns no tree. *)
Theorem md_tree_empty_graph (pick : list nat → list nat) (fuel : nat) :
  md_tree pick (S fuel) (init_store ∅) = [Raise StopIteration].
Proof. vm_compute. reflexivity. Qed.

(** C7 fails as stated: no run on the empty graph raises an exception
    named [EmptyGraph]. *)
Lemma md_tree_empty_graph_no_EmptyGraph :
  ¬ ∃ fuel, Raise (PyExc "EmptyGraph") ∈ run_md_tree fuel ∅.
Proof.
  intros [[|fuel] H].
  - vm_compute in H. set_solver.
  - unfold run_md_tree in H. rewrite md_tree_empty_graph in H. set_solver.
Qed.

(** ** md_tree on concrete graphs *)

Ltac by_computation := apply (bool_decide_unpack _); vm_compute; exact I.

Lemma adjb_adj g u v : Graph.adjb g u v = true ↔ Graph.adj g u v.
Proof.
  unfold Graph.adjb, Graph.adj. destruct (g !! u) as [nu|].
  - rewrite bool_decide_eq_true. split; [eauto|]. by intros (? & [= <-] & ?).
  - split; [done|]. by intros (? & [=] & _).
Qed.

Lemma B6_outcomes :
  outcome 100 <$> run_md_tree 100 B6 =
  (λ t, Ok (Some t)) <$>
    [MNode PARALLEL PNone [MNode SERIES PNone [leaf 1; leaf 2; leaf 3]; leaf 4];
     MNode PARALLEL PNone [MNode SERIES PNone [leaf 1; leaf 3; leaf 2]; leaf 4];
     MNode PARALLEL PNone [MNode SERIES PNone [leaf 2; leaf 1; leaf 3]; leaf 4];
     MNode PARALLEL PNone [MNode SERIES PNone [leaf 2; leaf 3; leaf 1]; leaf 4];
     MNode PARALLEL PNone [MNode SERIES PNone [leaf 3; leaf 1; leaf 2]; leaf 4];
     MNode PARALLEL PNone [MNode SERIES PNone [leaf 3; leaf 2; leaf 1]; leaf 4];
     MNode PARALLEL PNone [leaf 4; MNode SERIES PNone [leaf 1; leaf 2; leaf 3]];
     MNode PARALLEL PNone [leaf 4; MNode SERIES PNone [leaf 1; leaf 3; leaf 2]];
     MNode PARALLEL PNone [leaf 4; MNode SERIES PNone [leaf 2; leaf 1; leaf 3]];
     MNode PARALLEL PNone [leaf 4; MNode SERIES PNone [leaf 2; leaf 3; leaf 1]];
     MNode PARALLEL PNone [leaf 4; MNode SERIES PNone [leaf 3; leaf 1; leaf 2]];
     MNode PARALLEL PNone [leaf 4; MNode SERIES PNone [leaf 3; leaf 2; leaf 1]]].
Proof. vm_compute. reflexivity. Qed.

Lemma is_B6_tree_intro ch :
  ch ≡ₚ [leaf 1; leaf 2; leaf 3] →
  is_B6_tree (MNode PARALLEL PNone [MNode SERIES PNone ch; leaf 4]) ∧
  is_B6_tree (MNode PARALLEL PNone [leaf 4; MNode SERIES PNone ch]).
Proof.
  intros H. split; exists (MNode SERIES PNone ch), ch; simpl;
    (split; [done|]; split; [|done]); [done|apply perm_swap].
Qed.

(** C9: on the disjoint union of the triangle 1, 2, 3 and the vertex 4,
    [md_tree] returns, for every choice of the pivots, a PARALLEL root whose
    children are the leaf 4 and a SERIES node over the leaves 1, 2, 3. *)
Theorem md_tree_triangle_and_vertex :
  run_md_tree 100 B6 ≠ [] ∧
  Forall (λ r, ∃ t, outcome 100 r = Ok (Some t) ∧ is_B6_tree t) (run_md_tree 100 B6).
Proof.
  split.
  - intros E. pose proof B6_outcomes as H. rewrite E in H. discriminate H.
  - apply (Forall_fmap _ (λ o, ∃ t, o = Ok (Some t) ∧ is_B6_tree t)).
    rewrite B6_outcomes.
    repeat (apply Forall_cons; split; [|]); [..|apply Forall_nil_2];
      (eexists; split; [reflexivity|]);
      apply is_B6_tree_intro; solve_Permutation.
Qed.

(** C1 fails on the code.  On the simple graph [G1], with the pivots taken
    in ascending order, [md_tree] returns [T1], whose PARALLEL node over
    the leaves 4, 3, 2 is not a module: vertex 5 is adjacent to 2 and 3 but
    not to 4. *)
Theorem md_tree_module_property_fails :
  Graph.symmetric G1 ∧ Graph.irreflexive G1 ∧
  (∃ t s, run_md_tree_least 100 G1 = [Ok (t, s)] ∧ reify 100 s t = Some T1) ∧
  Ok (Some T1) ∈ outcome 100 <$> run_md_tree 100 G1 ∧
  ¬ module_property G1 T1.
Proof.
  split; [|split; [|split; [|split]]].
  - intros u v. unfold G1. rewrite !adj_add_edges.
    pose proof (adj_empty u v). pose proof (adj_empty v u). tauto.
  - intros u. unfold G1. rewrite adj_add_edges. intros [H|[H|H]];
      [by apply adj_empty in H|..];
      repeat (apply elem_of_cons in H as [H|H]; [simplify_eq|]);
      by apply elem_of_nil in H.
  - eexists _, _. split; vm_compute; reflexivity.
  - apply list_elem_of_lookup. exists 0. vm_compute. reflexivity.
  - intros H.
    assert (Hu : MNode PARALLEL PNone [leaf 4; leaf 3; leaf 2] ∈ mdt_internal T1).
    { apply list_elem_of_lookup. exists 1. vm_compute. reflexivity. }
    destruct (H _ Hu 5) as [Hall|Hnone].
    + by_computation.
    + by_computation.
    + assert (E : Graph.adjb G1 5 4 = false) by (vm_compute; reflexivity).
      apply not_true_iff_false in E. apply E, adjb_adj, Hall. by_computation.
    + apply (Hnone 2); [by_computation|]. apply adjb_adj. vm_compute. reflexivity.
Qed.

(** C4 fails on the code.  On the graph [G2], with the pivots taken in
    ascending order, [md_tree] returns [T2], in which a PARALLEL node is a
    child of a PARALLEL node. *)
Theorem md_tree_parallel_under_parallel :
  (∃ t s, run_md_tree_least 100 G2 = [Ok (t, s)] ∧ reify 100 s t = Some T2) ∧
  Ok (Some T2) ∈ outcome 100 <$> run_md_tree 100 G2 ∧
  ¬ no_same_type_parent T2.
Proof.
  split; [|split].
  - eexists _, _. split; vm_compute; reflexivity.
  - apply list_elem_of_lookup. exists 0. vm_compute. reflexivity.
  - intros H.
    destruct (H (MNode PARALLEL PNone
                   [MNode PARALLEL PNone [leaf 4; leaf 5]; leaf 3; leaf 2])) as [_ Hp].
    + apply list_elem_of_lookup. exists 2. vm_compute. reflexivity.
    + apply Hp. split; [reflexivity|].
      exists (MNode PARALLEL PNone [leaf 4; leaf 5]). split; [|reflexivity].
      simpl. left.
Qed.
